(** * Koala <-> Ableton MIDI converter: the mapping core and the file pipeline

    A shallow embedding of [koala_ableton_midi_converter.py].  Python integers
    are unbounded, so note numbers are [Z]; tuples are products; a path is the
    string it renders to; the file system is a finite map from paths to file
    contents. *)

From Stdlib Require Import Ascii.
From stdpp Require Import base numbers list strings gmap fin_maps pretty.

Local Open Scope Z_scope.

(** ** Mapping core *)

Definition OCTAVE_SHIFT : Z := 36.

(** [remap_within_32]: the chain of range tests of the source, in its order. *)
Definition remap_within_32 (w : Z) : Z :=
  if decide (0 <= w <= 3) then w + 12
  else if decide (12 <= w <= 15) then w - 12
  else if decide (4 <= w <= 7) then w + 4
  else if decide (8 <= w <= 11) then w - 4
  else if decide (16 <= w <= 19) then w + 12
  else if decide (28 <= w <= 31) then w - 12
  else if decide (20 <= w <= 23) then w + 4
  else if decide (24 <= w <= 27) then w - 4
  else w.

(** Python's [%] with a positive divisor is the floor remainder, as [Z.modulo]. *)
Definition remap_note (note : Z) : Z * bool :=
  if decide (note < 0 \/ note > 127) then (note, false)
  else
    let base := note - (note `mod` 32) in
    let w := note `mod` 32 in
    let new_note := base + remap_within_32 w in
    (new_note, bool_decide (new_note <> note)).

Definition clamp_midi (n : Z) : Z * bool :=
  if decide (n < 0) then (0, true)
  else if decide (n > 127) then (127, true)
  else (n, false).

Definition forward_koala_to_ableton (note : Z) : Z * bool * bool :=
  let '(r, changed) := remap_note note in
  if changed then
    let r2 := r + OCTAVE_SHIFT in
    let '(r2, did_clamp) := clamp_midi r2 in
    (r2, true, did_clamp)
  else (note, false, false).

(** Projections of the triple [forward_koala_to_ableton] returns. *)
Definition result_of (o : Z * bool * bool) : Z := o.1.1.
Definition changed_of (o : Z * bool * bool) : bool := o.1.2.
Definition clamped_of (o : Z * bool * bool) : bool := o.2.

(** [inverse_ableton_to_koala]: [n2] is [None] until the shifted hypothesis is
    in range.  The two returns of [n2] sit under [ok2], which is only set when
    [n2] is not [None]; the match on [n2] makes that explicit. *)
Definition inverse_ableton_to_koala (note : Z) : Z * bool :=
  let n1 := note in
  let n2 : option Z :=
    if decide (0 <= note - OCTAVE_SHIFT <= 127) then
      let unshifted := note - OCTAVE_SHIFT in
      Some (remap_note unshifted).1
    else None in
  let f1 := result_of (forward_koala_to_ableton n1) in
  let ok1 := bool_decide (f1 = note) in
  match n2 with
  | Some v2 =>
      let f2 := result_of (forward_koala_to_ableton v2) in
      let ok2 := bool_decide (f2 = note) in
      if ok2 && ok1 then (v2, true)
      else if ok2 then (v2, true)
      else if ok1 then (n1, false)
      else (n1, false)
  | None =>
      if ok1 then (n1, false)
      else (n1, false)
  end.

(** The resolution order in the words of the specification, to be compared
    with the function above: shifted candidate first when it is defined and
    validates, then the unshifted one, then the fallback. *)
Definition candidate_n2 (note : Z) : option Z :=
  if decide (0 <= note - 36 <= 127) then Some (remap_note (note - 36)).1 else None.

Definition validates (candidate note : Z) : bool :=
  bool_decide (result_of (forward_koala_to_ableton candidate) = note).

Definition inverse_by_priority (note : Z) : Z * bool :=
  match candidate_n2 note with
  | Some n2 =>
      if validates n2 note then (n2, true)
      else if validates note note then (note, false)
      else (note, false)
  | None =>
      if validates note note then (note, false) else (note, false)
  end.

(** ** MIDI messages and files (the part of mido the converter touches) *)

Module mido.
(** A message: its kind, the fields of a channel voice message, its delta
    time in ticks (a variable-length quantity in the file, never negative),
    and whatever else the codec keeps for other kinds. *)
Record Message : Type := mkMessage {
  type : string;
  channel : Z;
  note : Z;
  velocity : Z;
  time : N;
  data : list Z
}.

(** [msg.note = new] *)
Definition set_note (new : Z) (msg : Message) : Message :=
  {| type := type msg; channel := channel msg; note := new;
     velocity := velocity msg; time := time msg; data := data msg |}.

Record MidiFile : Type := mkMidiFile {
  midi_type : Z;
  ticks_per_beat : Z;
  tracks : list (list Message)
}.

Definition set_tracks (trs : list (list Message)) (mid : MidiFile) : MidiFile :=
  {| midi_type := midi_type mid; ticks_per_beat := ticks_per_beat mid;
     tracks := trs |}.

(** [msg.copy(time=delta)] *)
Definition set_time (delta : N) (msg : Message) : Message :=
  {| type := type msg; channel := channel msg; note := note msg;
     velocity := velocity msg; time := delta; data := data msg |}.

(** [MetaMessage('end_of_track', time=accum)]: only the time is set. *)
Definition end_of_track_message (accum : N) : Message :=
  {| type := "end_of_track"; channel := 0; note := 0; velocity := 0;
     time := accum; data := [] |}.

(** [fix_end_of_track], which [save] runs on every track: every end_of_track
    is taken out, its time is added to the next message, and one end_of_track
    closes the track.  [accum] is the generator's local variable. *)
Fixpoint fix_end_of_track_from (accum : N) (messages : list Message)
    : list Message :=
  match messages with
  | [] => [end_of_track_message accum]
  | msg :: rest =>
      if decide (type msg = "end_of_track") then
        fix_end_of_track_from (accum + time msg) rest
      else if decide (accum <> 0%N) then
        set_time (accum + time msg) msg :: fix_end_of_track_from 0 rest
      else msg :: fix_end_of_track_from accum rest
  end.

Definition fix_end_of_track (messages : list Message) : list Message :=
  fix_end_of_track_from 0 messages.

Definition REALTIME_TYPES : list string :=
  ["tune_request"; "clock"; "start"; "continue"; "stop"; "active_sensing";
   "reset"].

(** [msg.is_realtime] *)
Definition is_realtime (msg : Message) : bool :=
  bool_decide (type msg ∈ REALTIME_TYPES).
End mido.

(** ** Exceptions, file contents, the file system *)

(** [FileNotFoundError] keeps the one or two file names the failed call was
    given; [EOFError] is what the codec raises on a file that ends early;
    [CodecError] is any other error of the codec on a file it cannot parse. *)
Inductive exn : Type :=
  | ValueError (msg : string)
  | FileNotFoundError (filename : string) (filename2 : option string)
  | EOFError
  | CodecError (msg : string).

Definition single_quote : ascii := "039"%char.
Definition double_quote : ascii := "034"%char.
Definition backslash : ascii := "092"%char.

Fixpoint contains_char (c : ascii) (s : string) : bool :=
  match s with
  | EmptyString => false
  | String a s' => bool_decide (a = c) || contains_char c s'
  end.

Definition hex_digit (n : N) : ascii :=
  match n with
  | 0 => "0" | 1 => "1" | 2 => "2" | 3 => "3" | 4 => "4" | 5 => "5"
  | 6 => "6" | 7 => "7" | 8 => "8" | 9 => "9" | 10 => "a" | 11 => "b"
  | 12 => "c" | 13 => "d" | 14 => "e" | _ => "f"
  end%char%N.

(** One character inside [repr(s)]: the quote in use and the backslash are
    escaped, tab, newline and return have their letters, other control
    characters are written in hexadecimal.  Strings here are byte strings:
    the bytes of a non-ASCII character are kept, as Python keeps a printable
    character. *)
Definition repr_char (quote : ascii) (c : ascii) : string :=
  let n := N_of_ascii c in
  if bool_decide (c = quote) || bool_decide (c = backslash) then
    String backslash (String c EmptyString)
  else if decide (n = 9%N) then String backslash "t"
  else if decide (n = 10%N) then String backslash "n"
  else if decide (n = 13%N) then String backslash "r"
  else if decide (n < 32 \/ n = 127)%N then
    String backslash
      (String "x" (String (hex_digit (n `div` 16)) (String (hex_digit (n `mod` 16))
                                                         EmptyString)))
  else String c EmptyString.

Fixpoint repr_chars (quote : ascii) (s : string) : string :=
  match s with
  | EmptyString => EmptyString
  | String c s' => repr_char quote c +:+ repr_chars quote s'
  end.

(** [repr(s)] of a string: single quotes, unless the string has a single
    quote and no double quote. *)
Definition repr (s : string) : string :=
  let quote :=
    if contains_char single_quote s && negb (contains_char double_quote s)
    then double_quote else single_quote in
  String quote (repr_chars quote s +:+ String quote EmptyString).

(** [str(e)]; the text of the operating system is the POSIX one. *)
Definition str (e : exn) : string :=
  match e with
  | ValueError msg => msg
  | FileNotFoundError filename filename2 =>
      "[Errno 2] No such file or directory: " +:+ repr filename
      +:+ match filename2 with
          | Some target => " -> " +:+ repr target
          | None => EmptyString
          end
  | EOFError => EmptyString
  | CodecError msg => msg
  end.

(** What a path holds: something the codec parses to a track sequence, or
    something on which the codec raises [e]. *)
Inductive content : Type :=
  | Midi (mid : mido.MidiFile)
  | Unreadable (e : exn).

Abbreviation FS := (gmap string content).

(** A command runs on the file system and either raises or returns; [None]
    stands for a loop that was cut off before it finished. *)
Definition Cmd (A : Type) : Type := FS -> option (FS * (exn + A)).

Definition raise {A} (e : exn) : Cmd A := fun fs => Some (fs, inl e).

#[global] Instance Cmd_ret : MRet Cmd := fun A a fs => Some (fs, inr a).

#[global] Instance Cmd_bind : MBind Cmd := fun A B k c fs =>
  match c fs with
  | None => None
  | Some (fs', inl e) => Some (fs', inl e)
  | Some (fs', inr a) => k a fs'
  end.

(** [Path.exists()] *)
Definition exists_ (path : string) (fs : FS) : bool := bool_decide (is_Some (fs !! path)).

(** [src.replace(dst)]: a rename that silently replaces [dst]. *)
Definition replace (src dst : string) : Cmd unit :=
  fun fs =>
    match fs !! src with
    | None => Some (fs, inl (FileNotFoundError src (Some dst)))
    | Some c => Some (<[dst := c]> (delete src fs), inr tt)
    end.

(** [mido.MidiFile(in_path)] *)
Definition MidiFile_open (in_path : string) : Cmd mido.MidiFile :=
  fun fs =>
    match fs !! in_path with
    | None => Some (fs, inl (FileNotFoundError in_path None))
    | Some (Unreadable e) => Some (fs, inl e)
    | Some (Midi mid) => Some (fs, inr mid)
    end.

(** [write_track]: the events of one track as they are encoded, after
    [fix_end_of_track]; a realtime message stops the writing. *)
Definition write_track (track : list mido.Message) : exn + list mido.Message :=
  let messages := mido.fix_end_of_track track in
  if existsb mido.is_realtime messages then
    inl (ValueError "realtime messages are not allowed in MIDI files")
  else inr messages.

(** The loop of [_save] over the tracks: it stops at the first track that
    cannot be written. *)
Fixpoint write_tracks (tracks : list (list mido.Message))
    : exn + list (list mido.Message) :=
  match tracks with
  | [] => inr []
  | track :: rest =>
      match write_track track with
      | inl e => inl e
      | inr written =>
          match write_tracks rest with
          | inl e => inl e
          | inr rest' => inr (written :: rest')
          end
      end
  end.

(** What is left at the path when the writing stops part way: the header
    and the tracks before the failure; the codec reads it to its early end. *)
Definition truncated : content := Unreadable EOFError.

(** [mid.save(out_path)].  A type 0 file with other than one track is
    refused before the file is opened.  Otherwise the file is opened for
    writing, which empties it, the header is written, then the tracks; the
    path then holds what the codec reads back from it: the file as written,
    or a truncated file when a track could not be written.  The values of
    the header are those read from a file, and opening the output is taken
    to succeed. *)
Definition save (mid : mido.MidiFile) (out_path : string) : Cmd unit :=
  fun fs =>
    if decide (mido.midi_type mid = 0 /\ length (mido.tracks mid) <> 1%nat) then
      Some (fs, inl (ValueError "type 0 file must have exactly 1 track"))
    else
      match write_tracks (mido.tracks mid) with
      | inl e => Some (<[out_path := truncated]> fs, inl e)
      | inr written =>
          Some (<[out_path := Midi (mido.set_tracks written mid)]> fs, inr tt)
      end.

(** ** MIDI conversion *)

(** A loop over a list whose body may rewrite the element, updates the local
    counters and may raise. *)
Fixpoint for_each {A S : Type} (body : A -> S -> exn + (A * S))
    (l : list A) (s : S) : exn + (list A * S) :=
  match l with
  | [] => inr ([], s)
  | a :: l' =>
      match body a s with
      | inl e => inl e
      | inr (a', s') =>
          match for_each body l' s' with
          | inl e => inl e
          | inr (l'', s'') => inr (a' :: l'', s'')
          end
      end
  end.

(** The body of the inner loop of [convert_midi]; the counters are
    [(total, changed, clamped)].  Every event of a parsed file is an object of
    its own, so the assignment [msg.note = new] shows as the event the body
    hands back. *)
Definition convert_msg (mode : string) (msg : mido.Message) (counters : Z * Z * Z)
    : exn + (mido.Message * (Z * Z * Z)) :=
  let '(total, changed, clamped) := counters in
  if bool_decide (mido.type msg ∈ ["note_on"; "note_off"]) then
    let total := total + 1 in
    let old := mido.note msg in
    if decide (mode = "K2A") then
      let '(new, did_change, did_clamp) := forward_koala_to_ableton old in
      let '(msg, changed) :=
        if did_change then (mido.set_note new msg, changed + 1) else (msg, changed) in
      let clamped := if did_clamp then clamped + 1 else clamped in
      inr (msg, (total, changed, clamped))
    else if decide (mode = "A2K") then
      let '(new, did_change) := inverse_ableton_to_koala old in
      let '(msg, changed) :=
        if did_change then (mido.set_note new msg, changed + 1) else (msg, changed) in
      inr (msg, (total, changed, clamped))
    else inl (ValueError ("Unknown mode: " +:+ mode))
  else inr (msg, (total, changed, clamped)).

Definition convert_tracks (mode : string) (tracks : list (list mido.Message))
    : exn + (list (list mido.Message) * (Z * Z * Z)) :=
  for_each (for_each (convert_msg mode)) tracks (0, 0, 0).

(** [convert_midi]: open, run the two loops, save.  A raise inside the loops
    leaves the file system as it was: nothing has been written yet. *)
Definition convert_midi (in_path out_path : string) (mode : string) : Cmd (Z * Z * Z) :=
  mid ← MidiFile_open in_path;
  match convert_tracks mode (mido.tracks mid) with
  | inl e => raise e
  | inr (trs, counters) =>
      save (mido.set_tracks trs mid) out_path;;
      mret counters
  end.

(** ** Paths (the part of pathlib the converter touches) *)

Module pathlib.
(** A path is kept as pathlib splits it: the directory, and the final
    component cut at its last dot.  [suffix] is empty or starts with a dot. *)
Record Path : Type := mkPath {
  parent : string;
  stem : string;
  suffix : string
}.

(** [p.name] *)
Definition name (p : Path) : string := stem p +:+ suffix p.

(** [dir / name], as the string it renders to *)
Definition joinpath (dir name : string) : string := dir +:+ "/" +:+ name.

(** [str(p)], the key of [p] in the file system *)
Definition render (p : Path) : string := joinpath (parent p) (name p).

(** [p.with_name(n)] *)
Definition with_name (p : Path) (n : string) : string := joinpath (parent p) n.

(** [p.with_suffix(sfx)]: the final component keeps its stem.  The paths
    here are those of files, whose name is not empty, and [sfx] starts with a
    dot, so pathlib does not raise. *)
Definition with_suffix (p : Path) (sfx : string) : string :=
  joinpath (parent p) (stem p +:+ sfx).

(** What pathlib guarantees of a suffix. *)
Definition suffix_ok (p : Path) : Prop :=
  suffix p = "" \/ exists rest, suffix p = String "."%char rest.
End pathlib.

(** ** Backups and overwriting *)

(** The [while True] loop of [safe_backup], cut off after [fuel] rounds. *)
Fixpoint safe_backup_loop (fuel : nat) (path : pathlib.Path) (i : Z) : Cmd string :=
  fun fs =>
    match fuel with
    | O => None
    | S fuel' =>
        let bak_i :=
          pathlib.with_suffix path (pathlib.suffix path +:+ ".bak" +:+ pretty i) in
        if negb (exists_ bak_i fs) then
          (replace (pathlib.render path) bak_i;; mret bak_i) fs
        else safe_backup_loop fuel' path (i + 1) fs
    end.

Definition safe_backup (fuel : nat) (path : pathlib.Path) : Cmd string :=
  fun fs =>
    let bak := pathlib.with_suffix path (pathlib.suffix path +:+ ".bak") in
    if negb (exists_ bak fs) then
      (replace (pathlib.render path) bak;; mret bak) fs
    else safe_backup_loop fuel path 1 fs.

Definition write_with_optional_overwrite (fuel : nat) (in_path : pathlib.Path)
    (temp_out : string) (overwrite : bool) : Cmd (option string) :=
  if negb overwrite then mret None
  else
    backup_path ← safe_backup fuel in_path;
    replace temp_out (pathlib.render in_path);;
    mret (Some backup_path).

(** The k-th name [safe_backup] tries: [.bak], then [.bak1], [.bak2], ... *)
Definition backup_name (path : pathlib.Path) (k : nat) : string :=
  match k with
  | O => pathlib.with_suffix path (pathlib.suffix path +:+ ".bak")
  | S _ =>
      pathlib.with_suffix path
        (pathlib.suffix path +:+ ".bak" +:+ pretty (Z.of_nat k))
  end.

(** ** The batch of [App.run] *)

Record BatchState : Type := mkBatchState {
  total_files : Z;
  total_events : Z;
  total_changed : Z;
  total_clamped : Z;
  total_backups : Z;
  failures : list string
}.

Definition batch_start : BatchState :=
  {| total_files := 0; total_events := 0; total_changed := 0;
     total_clamped := 0; total_backups := 0; failures := [] |}.

Definition direction_suffix (mode : string) : string :=
  if decide (mode = "K2A") then "_KoalaToAbleton" else "_AbletonToKoala".

(** Where the converted file is first written. *)
Definition temp_out_of (mode : string) (overwrite : bool) (out_dir : string)
    (p : pathlib.Path) : string :=
  let suffix := direction_suffix mode in
  if overwrite then
    pathlib.with_name p (pathlib.stem p +:+ suffix +:+ pathlib.suffix p)
  else
    pathlib.joinpath out_dir (pathlib.stem p +:+ suffix +:+ pathlib.suffix p).

(** The two calls under [try]: they return the counters and the backup. *)
Definition convert_one (fuel : nat) (mode : string) (overwrite : bool)
    (out_dir : string) (p : pathlib.Path) : Cmd (Z * Z * Z * option string) :=
  let temp_out := temp_out_of mode overwrite out_dir p in
  counters ← convert_midi (pathlib.render p) temp_out mode;
  bak ← write_with_optional_overwrite fuel p temp_out overwrite;
  mret (counters, bak).

(** The updates after the two calls, and the [except] clause. *)
Definition record_success (st : BatchState) (r : Z * Z * Z * option string)
    : BatchState :=
  let '(t, c, cl, bak) := r in
  {| total_backups :=
       (if bak is Some _ then total_backups st + 1 else total_backups st);
     total_files := total_files st + 1;
     total_events := total_events st + t;
     total_changed := total_changed st + c;
     total_clamped := total_clamped st + cl;
     failures := failures st |}.

Definition record_failure (st : BatchState) (p : pathlib.Path) (e : exn)
    : BatchState :=
  {| total_files := total_files st; total_events := total_events st;
     total_changed := total_changed st; total_clamped := total_clamped st;
     total_backups := total_backups st;
     failures := failures st ++ [pathlib.name p +:+ ": " +:+ str e] |}.

(** One round of [for p in midi_files]. *)
Definition batch_round (fuel : nat) (mode : string) (overwrite : bool)
    (out_dir : string) (p : pathlib.Path) (st : BatchState) (fs : FS)
    : option (FS * BatchState) :=
  match convert_one fuel mode overwrite out_dir p fs with
  | None => None
  | Some (fs', inr r) => Some (fs', record_success st r)
  | Some (fs', inl e) => Some (fs', record_failure st p e)
  end.

Fixpoint batch_loop (fuel : nat) (mode : string) (overwrite : bool)
    (out_dir : string) (midi_files : list pathlib.Path) (st : BatchState)
    (fs : FS) : option (FS * BatchState) :=
  match midi_files with
  | [] => Some (fs, st)
  | p :: rest =>
      match batch_round fuel mode overwrite out_dir p st fs with
      | None => None
      | Some (fs', st') => batch_loop fuel mode overwrite out_dir rest st' fs'
      end
  end.

Definition nl : string := String "010"%char "".

(** ["\n".join(l)] *)
Definition join_lines (l : list string) : string := String.concat nl l.

(** The part of the message about failures. *)
Definition failure_report (failures : list string) : string :=
  if decide (failures = []) then ""
  else
    let msg := nl +:+ "Some files failed:" +:+ nl +:+ join_lines (take 10 failures) in
    if decide (10 < length failures)%nat then msg +:+ nl +:+ "..." else msg.

Definition batch_message (mode : string) (overwrite : bool)
    (midi_files : list pathlib.Path) (st : BatchState) : string :=
  let msg :=
    "Converted files: " +:+ pretty (total_files st) +:+ "/"
      +:+ pretty (Z.of_nat (length midi_files)) +:+ nl
    +:+ "Total note events: " +:+ pretty (total_events st) +:+ nl
    +:+ "Total events changed: " +:+ pretty (total_changed st) +:+ nl in
  let msg :=
    if decide (mode = "K2A") then
      msg +:+ "Total clamped after +36: " +:+ pretty (total_clamped st) +:+ nl
    else msg in
  let msg :=
    if overwrite then
      msg +:+ "Backups created: " +:+ pretty (total_backups st) +:+ nl
    else msg in
  msg +:+ failure_report (failures st).

(** The batch branch of [App.run] after the dialogs: the loop, then the
    message handed to [messagebox.showinfo]. *)
Definition run_batch (fuel : nat) (mode : string) (overwrite : bool)
    (out_dir : string) (midi_files : list pathlib.Path) (fs : FS)
    : option (FS * string) :=
  match batch_loop fuel mode overwrite out_dir midi_files batch_start fs with
  | None => None
  | Some (fs', st) => Some (fs', batch_message mode overwrite midi_files st)
  end.

(** Converting the same file again and again with overwrite on, once for each
    mode in the list; a run that raises leaves the file system as it stands
    and the next run starts from there. *)
Fixpoint convert_repeatedly (fuel : nat) (modes : list string)
    (p : pathlib.Path) (fs : FS) : option FS :=
  match modes with
  | [] => Some fs
  | mode :: rest =>
      match convert_one fuel mode true "" p fs with
      | None => None
      | Some (fs', _) => convert_repeatedly fuel rest p fs'
      end
  end.

(** ** Vocabulary of the statements *)

(** Whether [save] writes a file to its end: it is not a type 0 file with
    other than one track, and no track holds a realtime message. *)
Definition writable (mid : mido.MidiFile) : bool :=
  negb (bool_decide (mido.midi_type mid = 0 /\ length (mido.tracks mid) <> 1%nat))
  && forallb
       (fun track => negb (existsb mido.is_realtime (mido.fix_end_of_track track)))
       (mido.tracks mid).

(** The file as [save] writes it: every track closed by one end_of_track. *)
Definition as_saved (mid : mido.MidiFile) : mido.MidiFile :=
  mido.set_tracks (map mido.fix_end_of_track (mido.tracks mid)) mid.

(** The note an event carries after conversion in a valid mode. *)
Definition converted_note (mode : string) (old : Z) : Z :=
  if decide (mode = "K2A") then result_of (forward_koala_to_ableton old)
  else (inverse_ableton_to_koala old).1.

Definition is_note_event (msg : mido.Message) : bool :=
  bool_decide (mido.type msg ∈ ["note_on"; "note_off"]).

(** What the converter may do to one event: nothing but the note field moves,
    and it moves only on a note-on or note-off, to the transform's output. *)
Definition only_note_rewritten (mode : string) (m m' : mido.Message) : Prop :=
  mido.type m' = mido.type m /\
  mido.channel m' = mido.channel m /\
  mido.velocity m' = mido.velocity m /\
  mido.time m' = mido.time m /\
  mido.data m' = mido.data m /\
  (is_note_event m = false -> m' = m) /\
  (is_note_event m = true -> mido.note m' = converted_note mode (mido.note m)) /\
  (converted_note mode (mido.note m) = mido.note m -> m' = m).

(** Moving the source to a chosen backup name. *)
Definition move_to_backup (path : pathlib.Path) (bak : string) (fs : FS)
    : option (FS * (exn + string)) :=
  match fs !! pathlib.render path with
  | None => Some (fs, inl (FileNotFoundError (pathlib.render path) (Some bak)))
  | Some c => Some (<[bak := c]> (delete (pathlib.render path) fs), inr bak)
  end.

(** What happened to each file of a batch, in order: every file is run on the
    file system its predecessor left, whether that one raised or not. *)
Inductive batch_trace (fuel : nat) (mode : string) (overwrite : bool)
    (out_dir : string)
    : list pathlib.Path -> FS -> list (exn + Z * Z * Z * option string) -> FS -> Prop :=
  | trace_done fs : batch_trace fuel mode overwrite out_dir [] fs [] fs
  | trace_file p rest fs fs1 outcome outcomes fs' :
      convert_one fuel mode overwrite out_dir p fs = Some (fs1, outcome) ->
      batch_trace fuel mode overwrite out_dir rest fs1 outcomes fs' ->
      batch_trace fuel mode overwrite out_dir (p :: rest) fs (outcome :: outcomes) fs'.

Fixpoint succeeded {R : Type} (outcomes : list (exn + R)) : Z :=
  match outcomes with
  | [] => 0
  | inr _ :: rest => 1 + succeeded rest
  | inl _ :: rest => succeeded rest
  end.

(** The line recorded for each file that raised: its name and the message. *)
Fixpoint failure_lines {R : Type} (files : list pathlib.Path)
    (outcomes : list (exn + R)) : list string :=
  match files, outcomes with
  | p :: files', inl e :: outcomes' =>
      (pathlib.name p +:+ ": " +:+ str e) :: failure_lines files' outcomes'
  | _ :: files', inr _ :: outcomes' => failure_lines files' outcomes'
  | _, _ => []
  end.

(** ** Sample files *)

Definition set_tempo : mido.Message :=
  {| mido.type := "set_tempo"; mido.channel := 0; mido.note := 0;
     mido.velocity := 0; mido.time := 0%N; mido.data := [500000] |}.

Definition end_of_track : mido.Message :=
  {| mido.type := "end_of_track"; mido.channel := 0; mido.note := 0;
     mido.velocity := 0; mido.time := 0%N; mido.data := [] |}.

Definition note_on_60 : mido.Message :=
  {| mido.type := "note_on"; mido.channel := 9; mido.note := 60;
     mido.velocity := 100; mido.time := 0%N; mido.data := [] |}.

Definition note_off_60 : mido.Message :=
  {| mido.type := "note_off"; mido.channel := 9; mido.note := 60;
     mido.velocity := 0; mido.time := 240%N; mido.data := [] |}.

(** A file with a tempo track only: no note-on, no note-off. *)
Definition tempo_only : mido.MidiFile :=
  {| mido.midi_type := 1; mido.ticks_per_beat := 480;
     mido.tracks := [[set_tempo; end_of_track]] |}.

Definition two_tracks : mido.MidiFile :=
  {| mido.midi_type := 1; mido.ticks_per_beat := 480;
     mido.tracks := [[set_tempo; end_of_track];
                     [note_on_60; note_off_60; end_of_track]] |}.

Definition a_mid : pathlib.Path :=
  {| pathlib.parent := "d"; pathlib.stem := "a"; pathlib.suffix := ".mid" |}.

Definition b_mid : pathlib.Path :=
  {| pathlib.parent := "d"; pathlib.stem := "b"; pathlib.suffix := ".mid" |}.

(** A folder where [a.mid] has been converted in place once before. *)
Definition a_mid_and_bak : FS :=
  <["d/a.mid" := Midi two_tracks]> {["d/a.mid.bak" := Midi two_tracks]}.

(** ** Vocabulary of the further properties *)

(** What the loop body leaves of one event in a valid mode. *)
Definition rewrite_msg (mode : string) (msg : mido.Message) : mido.Message :=
  if is_note_event msg
  then mido.set_note (converted_note mode (mido.note msg)) msg
  else msg.

(** The flags the transform of the mode reports for a note. *)
Definition did_change (mode : string) (old : Z) : bool :=
  if decide (mode = "K2A") then changed_of (forward_koala_to_ableton old)
  else (inverse_ableton_to_koala old).2.

Definition did_clamp (mode : string) (old : Z) : bool :=
  if decide (mode = "K2A") then clamped_of (forward_koala_to_ableton old)
  else false.

(** How many events of a list satisfy a test. *)
Fixpoint count_events (P : mido.Message -> bool) (msgs : list mido.Message) : Z :=
  match msgs with
  | [] => 0
  | msg :: rest => Z.b2z (P msg) + count_events P rest
  end.

(** The three counters a valid mode reports for a file. *)
Definition tally (mode : string) (tracks : list (list mido.Message)) : Z * Z * Z :=
  (count_events is_note_event (concat tracks),
   count_events (fun msg => is_note_event msg && did_change mode (mido.note msg))
     (concat tracks),
   count_events (fun msg => is_note_event msg && did_clamp mode (mido.note msg))
     (concat tracks)).

(** The file a valid mode hands to [save]: every event rewritten. *)
Definition converted (mode : string) (mid : mido.MidiFile) : mido.MidiFile :=
  mido.set_tracks (map (map (rewrite_msg mode)) (mido.tracks mid)) mid.

(** The loop keeps [0 <= clamped <= changed <= total], in any mode. *)
Definition counters_ordered (mode : string) (counters : Z * Z * Z) : Prop :=
  0 <= counters.2 <= counters.1.2 /\ counters.1.2 <= counters.1.1 /\
  (mode <> "K2A" -> counters.2 = 0).

(** The sums a batch should report: counters of the files that succeeded. *)
Fixpoint sum_counters (outcomes : list (exn + Z * Z * Z * option string))
    : Z * Z * Z :=
  match outcomes with
  | [] => (0, 0, 0)
  | inr (t, c, cl, _) :: rest =>
      let '(ts, cs, cls) := sum_counters rest in (t + ts, c + cs, cl + cls)
  | inl _ :: rest => sum_counters rest
  end.

(** ** The single-file branch of [App.run] *)




(** ** Discovery: [iter_midi_files] *)

(** [s.rfind(c)]; [None] stands for Python's -1. *)
Fixpoint rfind (c : ascii) (s : string) : option nat :=
  match s with
  | "" => None
  | String a s' =>
      match rfind c s' with
      | Some i => Some (S i)
      | None => if decide (a = c) then Some 0%nat else None
      end
  end.

(** [s[i:]] *)
Fixpoint string_drop (i : nat) (s : string) : string :=
  match i, s with
  | O, _ => s
  | S i', String _ s' => string_drop i' s'
  | S _, "" => ""
  end.

(** [s[:i]] *)
Fixpoint string_take (i : nat) (s : string) : string :=
  match i, s with
  | O, _ => ""
  | S i', String a s' => String a (string_take i' s')
  | S _, "" => ""
  end.

(** [p.suffix] of a final component: from the last dot on, unless that dot
    opens or closes the name. *)
Definition suffix_of (name : string) : string :=
  match rfind "." name with
  | Some i =>
      if decide (0 < Z.of_nat i < Z.of_nat (String.length name) - 1)
      then string_drop i name else ""
  | None => ""
  end.

(** [p.stem] *)
Definition stem_of (name : string) : string :=
  match rfind "." name with
  | Some i =>
      if decide (0 < Z.of_nat i < Z.of_nat (String.length name) - 1)
      then string_take i name else name
  | None => name
  end.

(** [str.lower()], on the ASCII letters. *)
Definition lower_char (a : ascii) : ascii :=
  let n := nat_of_ascii a in
  if decide (65 <= n <= 90)%nat then ascii_of_nat (n + 32) else a.

Fixpoint lower (s : string) : string :=
  match s with
  | "" => ""
  | String a s' => String (lower_char a) (lower s')
  end.

(** What a folder holds: files, and folders with what they hold. *)
#[local] Unset Elimination Schemes.
Inductive entry : Type :=
  | File (name : string)
  | Dir (name : string) (children : list entry).
#[local] Set Elimination Schemes.

Definition entry_name (e : entry) : string :=
  match e with File name => name | Dir name _ => name end.

(** [p.is_file()] *)
Definition is_file (e : entry) : bool :=
  match e with File _ => true | Dir _ _ => false end.

(** The path of an entry [name] of the folder [dir], as pathlib splits it. *)
Definition path_of (dir name : string) : pathlib.Path :=
  {| pathlib.parent := dir; pathlib.stem := stem_of name;
     pathlib.suffix := suffix_of name |}.

(** [folder.iterdir()]: the entries of the folder, each with its folder. *)
Definition iterdir (folder : string) (children : list entry)
    : list (string * entry) :=
  map (pair folder) children.

(** An entry and everything below it. *)
Fixpoint walk (dir : string) (e : entry) : list (string * entry) :=
  (dir, e) ::
  match e with
  | File _ => []
  | Dir name children => flat_map (walk (pathlib.joinpath dir name)) children
  end.

(** [folder.rglob("*")]: everything below the folder. *)
Definition rglob (folder : string) (children : list entry)
    : list (string * entry) :=
  flat_map (walk folder) children.

(** The test of both loops: [p.is_file() and p.suffix.lower() in exts]. *)
Definition is_midi_file (e : entry) : bool :=
  is_file e && bool_decide (lower (suffix_of (entry_name e)) ∈ [".mid"; ".midi"]).

(** [iter_midi_files]: the paths the generator yields, as a list. *)
Definition iter_midi_files (folder : string) (children : list entry)
    (recursive : bool) : list pathlib.Path :=
  map (fun de => path_of de.1 (entry_name de.2))
    (List.filter (fun de => is_midi_file de.2)
       (if recursive then rglob folder children else iterdir folder children)).

(** The ending [safe_backup] gives its k-th name. *)
Definition backup_ending (k : nat) : string :=
  match k with
  | O => ".bak"
  | S _ => ".bak" +:+ pretty (Z.of_nat k)
  end.

(** A folder with a file, a backup, a folder named like a MIDI file, and a
    subfolder with an upper-case MIDI file. *)
Definition sample_folder : list entry :=
  [File "a.mid"; File "a.mid.bak"; Dir "loops.mid" [File "notes.txt"];
   Dir "sub" [File "B.MIDI"; File ".mid"]].

Definition b_upper : pathlib.Path :=
  {| pathlib.parent := "d/sub"; pathlib.stem := "B"; pathlib.suffix := ".MIDI" |}.

(** ** Facts about the mapping core *)

(** One test of an if-chain at a time, closing the impossible branches early. *)
Ltac range_cases := repeat (case_decide; try lia).

Lemma remap_within_32_range w :
  0 <= w <= 31 -> 0 <= remap_within_32 w <= 31.
Proof. intros Hw. unfold remap_within_32. range_cases. Qed.

Lemma remap_within_32_involutive w :
  0 <= w <= 31 -> remap_within_32 (remap_within_32 w) = w.
Proof.
  intros Hw. unfold remap_within_32 at 2. range_cases;
    unfold remap_within_32; range_cases.
Qed.

Lemma remap_within_32_moves w :
  0 <= w <= 31 -> remap_within_32 w <> w.
Proof. intros Hw. unfold remap_within_32. range_cases. Qed.

(** Residue and base of an in-range note. *)
Lemma residue_range n : 0 <= n `mod` 32 <= 31.
Proof. pose proof (Z.mod_pos_bound n 32). lia. Qed.

Lemma base_range n : 0 <= n <= 127 -> 0 <= n - n `mod` 32 <= 96.
Proof.
  intros Hn. pose proof (Z.mod_pos_bound n 32 eq_refl).
  pose proof (Z.div_mod n 32). pose proof (Z.div_lt_upper_bound n 32 4).
  pose proof (Z.div_pos n 32). lia.
Qed.

Lemma mod_32_rebuild n r :
  0 <= r <= 31 -> (n - n `mod` 32 + r) `mod` 32 = r.
Proof.
  intros Hr. pose proof (Z.div_mod n 32).
  replace (n - n `mod` 32 + r) with (r + n `div` 32 * 32) by lia.
  rewrite Z.mod_add by lia. apply Z.mod_small. lia.
Qed.

Lemma remap_note_in_range n :
  0 <= n <= 127 ->
  remap_note n = (n - n `mod` 32 + remap_within_32 (n `mod` 32), true).
Proof.
  intros Hn. unfold remap_note. case_decide; [lia|]. f_equal.
  apply bool_decide_eq_true. pose proof (residue_range n) as Hw.
  pose proof (remap_within_32_moves _ Hw). lia.
Qed.

Lemma remap_note_out_of_range n :
  n < 0 \/ n > 127 -> remap_note n = (n, false).
Proof. intros Hn. unfold remap_note. by case_decide. Qed.

Lemma remap_note_bounds n :
  0 <= n <= 127 -> 0 <= (remap_note n).1 <= 127.
Proof.
  intros Hn. rewrite remap_note_in_range by done. simpl.
  pose proof (base_range n Hn).
  pose proof (remap_within_32_range _ (residue_range n)). lia.
Qed.

Lemma remap_note_involutive n :
  0 <= n <= 127 -> (remap_note (remap_note n).1).1 = n.
Proof.
  intros Hn. pose proof (remap_note_bounds n Hn) as Hb.
  rewrite (remap_note_in_range (remap_note n).1) by done.
  rewrite remap_note_in_range by done. simpl.
  pose proof (residue_range n) as Hw.
  pose proof (remap_within_32_range _ Hw) as Hr.
  rewrite (mod_32_rebuild n _ Hr), remap_within_32_involutive by done. lia.
Qed.

Lemma forward_in_range n :
  0 <= n <= 127 ->
  forward_koala_to_ableton n =
    ((clamp_midi ((remap_note n).1 + OCTAVE_SHIFT)).1, true,
     (clamp_midi ((remap_note n).1 + OCTAVE_SHIFT)).2).
Proof.
  intros Hn. unfold forward_koala_to_ableton.
  rewrite remap_note_in_range by done. simpl. by destruct (clamp_midi _).
Qed.

Lemma forward_out_of_range n :
  n < 0 \/ n > 127 -> forward_koala_to_ableton n = (n, false, false).
Proof.
  intros Hn. unfold forward_koala_to_ableton.
  by rewrite remap_note_out_of_range.
Qed.

Lemma clamp_midi_in_range n : 0 <= n <= 127 -> clamp_midi n = (n, false).
Proof. intros Hn. unfold clamp_midi. range_cases. done. Qed.

Lemma clamp_midi_not_clamped n : (clamp_midi n).2 = false -> clamp_midi n = (n, false).
Proof. unfold clamp_midi. by repeat case_decide. Qed.

(** A forward conversion that does not clamp is the remapped note, 36 higher. *)
Lemma forward_not_clamped n :
  0 <= n <= 127 ->
  clamped_of (forward_koala_to_ableton n) = false ->
  forward_koala_to_ableton n = ((remap_note n).1 + OCTAVE_SHIFT, true, false) /\
  (remap_note n).1 + OCTAVE_SHIFT <= 127.
Proof.
  intros Hn. rewrite forward_in_range by done. unfold clamped_of. simpl.
  intros Hc. rewrite (clamp_midi_not_clamped _ Hc). split; [done|].
  revert Hc. unfold clamp_midi. pose proof (remap_note_bounds n Hn).
  unfold OCTAVE_SHIFT. repeat case_decide; simpl; (done || lia).
Qed.

(** The inverse agrees with the resolution order of the specification. *)
Lemma inverse_is_by_priority note :
  inverse_ableton_to_koala note = inverse_by_priority note.
Proof.
  unfold inverse_ableton_to_koala, inverse_by_priority, candidate_n2, validates,
    OCTAVE_SHIFT.
  case_decide; [|by repeat case_bool_decide].
  repeat case_bool_decide; done.
Qed.

(** ** Facts about the event converter *)

Lemma set_note_same msg : mido.set_note (mido.note msg) msg = msg.
Proof. by destruct msg. Qed.

Lemma forward_unchanged n :
  changed_of (forward_koala_to_ableton n) = false ->
  result_of (forward_koala_to_ableton n) = n.
Proof.
  unfold forward_koala_to_ableton, changed_of, result_of.
  destruct (remap_note n) as [r [|]]; [|done].
  by destruct (clamp_midi _).
Qed.

Lemma inverse_unchanged n :
  (inverse_ableton_to_koala n).2 = false -> (inverse_ableton_to_koala n).1 = n.
Proof.
  unfold inverse_ableton_to_koala.
  repeat (case_decide || case_bool_decide); simpl; done.
Qed.

(** In a valid mode the loop body rewrites the note of a note event to the
    transform's output, and never raises. *)
Lemma convert_msg_valid mode msg counters :
  mode = "K2A" \/ mode = "A2K" ->
  exists counters',
    convert_msg mode msg counters =
      inr (if is_note_event msg
           then mido.set_note (converted_note mode (mido.note msg)) msg
           else msg, counters').
Proof.
  intros Hmode. destruct counters as [[total changed] clamped].
  unfold convert_msg, is_note_event, converted_note.
  case_bool_decide; [|by eexists].
  destruct Hmode as [-> | ->]; simpl.
  - pose proof (forward_unchanged (mido.note msg)) as Hsame.
    unfold changed_of, result_of in *.
    destruct (forward_koala_to_ableton _) as [[new [|]] did_clamp]; simpl in *;
      [by eexists|]. rewrite Hsame, set_note_same by done. by eexists.
  - pose proof (inverse_unchanged (mido.note msg)) as Hsame.
    destruct (inverse_ableton_to_koala _) as [new [|]]; simpl in *;
      [by eexists|]. rewrite Hsame, set_note_same by done. by eexists.
Qed.

Lemma rewritten_only_note mode msg :
  only_note_rewritten mode msg
    (if is_note_event msg
     then mido.set_note (converted_note mode (mido.note msg)) msg
     else msg).
Proof.
  unfold only_note_rewritten. destruct (is_note_event msg); simpl;
    repeat split; try done.
  intros ->. apply set_note_same.
Qed.

(** A loop whose body never raises relates the list it leaves to the one it
    was given, element by element. *)
Lemma for_each_Forall2 {A S : Type} (body : A -> S -> exn + (A * S))
    (R : A -> A -> Prop) (l : list A) (s : S) :
  (forall a s, exists a' s', body a s = inr (a', s') /\ R a a') ->
  exists l' s', for_each body l s = inr (l', s') /\ Forall2 R l l'.
Proof.
  intros Hbody. revert s. induction l as [|a l IH]; intros s; simpl.
  - by exists [], s.
  - destruct (Hbody a s) as (a' & s' & -> & HR).
    destruct (IH s') as (l' & s'' & -> & HF).
    exists (a' :: l'), s''. split; [done|]. by constructor.
Qed.

Lemma convert_tracks_valid mode tracks :
  mode = "K2A" \/ mode = "A2K" ->
  exists trs counters,
    convert_tracks mode tracks = inr (trs, counters) /\
    Forall2 (Forall2 (only_note_rewritten mode)) tracks trs.
Proof.
  intros Hmode. unfold convert_tracks. apply for_each_Forall2.
  intros track s. apply for_each_Forall2. intros msg s'.
  destruct (convert_msg_valid mode msg s' Hmode) as [s'' ->].
  eexists _, _. split; [done|]. apply rewritten_only_note.
Qed.

(** Without a note event the body of the loop never looks at the mode. *)
Lemma for_each_skip {A S : Type} (body : A -> S -> exn + (A * S))
    (P : A -> Prop) (l : list A) (s : S) :
  (forall a s, P a -> body a s = inr (a, s)) ->
  Forall P l -> for_each body l s = inr (l, s).
Proof.
  intros Hbody. induction 1 as [|a l Ha _ IH]; simpl; [done|].
  by rewrite Hbody, IH.
Qed.

Lemma convert_tracks_without_notes mode tracks :
  Forall (Forall (fun msg => is_note_event msg = false)) tracks ->
  convert_tracks mode tracks = inr (tracks, (0, 0, 0)).
Proof.
  intros Hno. unfold convert_tracks.
  apply (for_each_skip _ (Forall (fun msg => is_note_event msg = false)));
    [|done].
  intros track s Htrack.
  apply (for_each_skip _ (fun msg => is_note_event msg = false)); [|done].
  intros msg [[total changed] clamped] Hmsg. unfold convert_msg.
  unfold is_note_event in Hmsg. by rewrite Hmsg.
Qed.

Lemma set_tracks_same mid : mido.set_tracks (mido.tracks mid) mid = mid.
Proof. by destruct mid. Qed.

(** ** Facts about [save] *)

Lemma write_tracks_writable tracks :
  forallb
    (fun track => negb (existsb mido.is_realtime (mido.fix_end_of_track track)))
    tracks = true ->
  write_tracks tracks = inr (map mido.fix_end_of_track tracks).
Proof.
  induction tracks as [|track tracks IH]; simpl; [done|].
  intros [Htrack Hrest]%andb_prop. unfold write_track.
  apply negb_true_iff in Htrack. by rewrite Htrack, IH.
Qed.

Lemma write_tracks_returns tracks written :
  write_tracks tracks = inr written ->
  forallb
    (fun track => negb (existsb mido.is_realtime (mido.fix_end_of_track track)))
    tracks = true /\
  written = map mido.fix_end_of_track tracks.
Proof.
  revert written. induction tracks as [|track tracks IH]; intros written; simpl.
  - by intros [= <-].
  - unfold write_track.
    destruct (existsb mido.is_realtime (mido.fix_end_of_track track)); [done|].
    destruct (write_tracks tracks) as [e|rest]; [done|].
    intros [= <-]. destruct (IH rest eq_refl) as [-> ->]. done.
Qed.

(** [save] on a writable file stores the file as saved. *)
Lemma save_writable mid out_path (fs : FS) :
  writable mid = true ->
  save mid out_path fs = Some (<[out_path := Midi (as_saved mid)]> fs, inr tt).
Proof.
  unfold writable, save, as_saved. intros [Htype Htracks]%andb_prop.
  apply negb_true_iff, bool_decide_eq_false in Htype.
  case_decide; [done|]. by rewrite write_tracks_writable.
Qed.

(** When [save] returns, the file was writable. *)
Lemma save_returns mid out_path (fs fs' : FS) u :
  save mid out_path fs = Some (fs', inr u) ->
  writable mid = true /\ fs' = <[out_path := Midi (as_saved mid)]> fs.
Proof.
  unfold writable, save, as_saved. case_decide as Htype; [done|].
  destruct (write_tracks (mido.tracks mid)) as [e|written] eqn:Hw; [done|].
  intros [= <-]. apply write_tracks_returns in Hw as [-> ->].
  split; [|done]. rewrite andb_true_r. by apply negb_true_iff, bool_decide_eq_false.
Qed.

(** [save] always ends, touches no path but its own, and adds at most one. *)
Lemma save_runs mid out_path (fs : FS) :
  exists fs' r,
    save mid out_path fs = Some (fs', r) /\
    (size fs' <= S (size fs))%nat /\
    forall q, q <> out_path -> fs' !! q = fs !! q.
Proof.
  unfold save. case_decide; [by eexists _, _; eauto|].
  destruct (write_tracks (mido.tracks mid)) as [e|written];
    (eexists _, _; split; [done|]; split;
      [rewrite map_size_insert; destruct (fs !! out_path); simpl; lia
      |intros q Hq; by rewrite lookup_insert_ne]).
Qed.

(** Without a note event the file goes to [save] as it was read. *)
Lemma convert_midi_without_notes in_path out_path mode mid (fs : FS) :
  fs !! in_path = Some (Midi mid) ->
  Forall (Forall (fun msg => is_note_event msg = false)) (mido.tracks mid) ->
  convert_midi in_path out_path mode fs =
    (save mid out_path;; mret (0, 0, 0)) fs.
Proof.
  intros Hin Hno. unfold convert_midi. unfold mbind at 1. unfold Cmd_bind at 1.
  unfold MidiFile_open.
  rewrite Hin, convert_tracks_without_notes by done. by rewrite set_tracks_same.
Qed.




(** ** Facts about strings and backup names *)

Lemma string_app_cons a s t : String a s +:+ t = String a (s +:+ t).
Proof. reflexivity. Qed.

Lemma string_app_nil_r s : s +:+ "" = s.
Proof. induction s as [|a s IH]; [done|]. by rewrite string_app_cons, IH. Qed.

Lemma string_app_assoc s t u : (s +:+ t) +:+ u = s +:+ (t +:+ u).
Proof. induction s as [|a s IH]; [done|]. by rewrite !string_app_cons, IH. Qed.

Lemma string_app_length s t :
  String.length (s +:+ t) = (String.length s + String.length t)%nat.
Proof. induction s as [|a s IH]; [done|]. rewrite string_app_cons. simpl. by rewrite IH. Qed.

Lemma pretty_N_go_nonempty x s : s <> "" -> pretty_N_go x s <> "".
Proof.
  revert s. induction (N.lt_wf_0 x) as [x _ IH]; intros s Hs.
  destruct (decide (x = 0)%N) as [->|Hx]; [by rewrite pretty_N_go_0|].
  rewrite pretty_N_go_step by lia. apply IH; [|done].
  apply N.div_lt; lia.
Qed.

Lemma pretty_pos_nonempty (i : Z) : 0 < i -> pretty i <> "".
Proof.
  destruct i as [|p|p]; [lia| |lia]. intros _.
  unfold pretty, pretty_Z, pretty, pretty_positive, pretty, pretty_N.
  case_decide; [done|]. rewrite pretty_N_go_step by lia.
  by apply pretty_N_go_nonempty.
Qed.

(** The names [safe_backup] tries are the rendered path followed by [.bak]
    and, from the second on, the round number. *)
Lemma backup_name_0 path :
  backup_name path 0 = pathlib.render path +:+ ".bak".
Proof.
  unfold backup_name, pathlib.with_suffix, pathlib.render, pathlib.joinpath,
    pathlib.name. by rewrite !string_app_assoc.
Qed.

Lemma backup_name_S path k :
  backup_name path (S k) =
    pathlib.render path +:+ ".bak" +:+ pretty (Z.of_nat (S k)).
Proof.
  unfold backup_name, pathlib.with_suffix, pathlib.render, pathlib.joinpath,
    pathlib.name. by rewrite !string_app_assoc.
Qed.

Lemma backup_name_1 path :
  backup_name path 1 = pathlib.render path +:+ ".bak1".
Proof. by rewrite backup_name_S. Qed.

Lemma backup_name_inj path : Inj (=) (=) (backup_name path).
Proof.
  intros j k. destruct j as [|j], k as [|k];
    rewrite ?backup_name_0, ?backup_name_S; intros Heq; [done| | |].
  - apply (inj (String.app _)) in Heq.
    rewrite <-(string_app_nil_r ".bak") in Heq at 1.
    apply (inj (String.app _)) in Heq.
    symmetry in Heq. by apply pretty_pos_nonempty in Heq; [|lia].
  - apply (inj (String.app _)) in Heq.
    rewrite <-(string_app_nil_r ".bak") in Heq at 2.
    apply (inj (String.app _)) in Heq.
    by apply pretty_pos_nonempty in Heq; [|lia].
  - do 2 apply (inj (String.app _)) in Heq.
    apply (inj pretty) in Heq. lia.
Qed.

Lemma backup_name_not_source path k : backup_name path k <> pathlib.render path.
Proof.
  intros Heq. apply (f_equal String.length) in Heq.
  destruct k; rewrite ?backup_name_0, ?backup_name_S, !string_app_length in Heq;
    simpl in Heq; lia.
Qed.

(** In overwrite mode the staging file never has the name of a backup. *)
Lemma backup_name_not_temp_out path mode out_dir k :
  pathlib.suffix_ok path ->
  backup_name path k <> temp_out_of mode true out_dir path.
Proof.
  intros Hok Heq.
  assert (exists tail,
    backup_name path k =
      pathlib.parent path +:+ "/" +:+ pathlib.stem path
        +:+ pathlib.suffix path +:+ String "."%char tail) as [tail Hname].
  { destruct k; [exists "bak" | eexists ("bak" +:+ _)];
      unfold backup_name, pathlib.with_suffix, pathlib.joinpath; done. }
  rewrite Hname in Heq. unfold temp_out_of, pathlib.with_name, pathlib.joinpath in Heq.
  do 3 apply (inj (String.app _)) in Heq.
  assert (exists tail', direction_suffix mode = String "_"%char tail')
    as [tail' Hdir].
  { unfold direction_suffix. case_decide; by eexists. }
  rewrite Hdir in Heq.
  destruct Hok as [Hs | [rest Hs]]; rewrite Hs in Heq; discriminate Heq.
Qed.

(** ** Facts about [safe_backup] *)

Lemma replace_then_return path bak (fs : FS) :
  (replace (pathlib.render path) bak;; mret bak) fs = move_to_backup path bak fs.
Proof.
  unfold mbind, Cmd_bind, replace, move_to_backup, mret, Cmd_ret.
  by destruct (fs !! pathlib.render path).
Qed.

Lemma exists_true path (fs : FS) : exists_ path fs = true <-> is_Some (fs !! path).
Proof. unfold exists_. apply bool_decide_eq_true. Qed.

Lemma exists_false path (fs : FS) : exists_ path fs = false <-> fs !! path = None.
Proof.
  unfold exists_. rewrite bool_decide_eq_false. symmetry. apply eq_None_not_Some.
Qed.

Lemma loop_name path j :
  (1 <= j)%nat ->
  pathlib.with_suffix path (pathlib.suffix path +:+ ".bak" +:+ pretty (Z.of_nat j))
    = backup_name path j.
Proof. by destruct j; [lia|]. Qed.

(** The loop started at round [j] stops at the first free name from [j] on. *)
Lemma safe_backup_loop_first path (fs : FS) n :
  forall fuel j,
    (1 <= j)%nat -> (n < fuel)%nat ->
    (forall m, (j <= m < j + n)%nat -> is_Some (fs !! backup_name path m)) ->
    fs !! backup_name path (j + n) = None ->
    safe_backup_loop fuel path (Z.of_nat j) fs =
      move_to_backup path (backup_name path (j + n)) fs.
Proof.
  induction n as [|n IH]; intros fuel j Hj Hfuel Hused Hfree;
    (destruct fuel as [|fuel]; [lia|]); simpl; rewrite loop_name by done.
  - rewrite Nat.add_0_r in Hfree. apply exists_false in Hfree as ->. simpl.
    rewrite Nat.add_0_r. apply replace_then_return.
  - assert (exists_ (backup_name path j) fs = true) as ->.
    { apply exists_true, Hused. lia. }
    simpl. replace (Z.of_nat j + 1) with (Z.of_nat (S j)) by lia.
    rewrite (IH fuel (S j)); [| lia | lia | |].
    + by replace (S j + n)%nat with (j + S n)%nat by lia.
    + intros m Hm. apply Hused. lia.
    + by replace (S j + n)%nat with (j + S n)%nat by lia.
Qed.

Lemma safe_backup_first path (fs : FS) fuel k :
  (k <= fuel)%nat ->
  (forall m, (m < k)%nat -> is_Some (fs !! backup_name path m)) ->
  fs !! backup_name path k = None ->
  safe_backup fuel path fs = move_to_backup path (backup_name path k) fs.
Proof.
  intros Hfuel Hused Hfree. unfold safe_backup.
  change (pathlib.with_suffix path (pathlib.suffix path +:+ ".bak"))
    with (backup_name path 0).
  destruct k as [|k].
  - apply exists_false in Hfree as ->. simpl. apply replace_then_return.
  - assert (exists_ (backup_name path 0) fs = true) as ->.
    { apply exists_true, Hused. lia. }
    simpl. apply (safe_backup_loop_first path fs k fuel 1); [lia|lia| |done].
    intros m Hm. apply Hused. lia.
Qed.

(** Pigeonhole: the names are pairwise distinct, so a file system with
    [size fs] entries leaves one of the first [size fs + 1] names free. *)
Lemma backup_names_run_out path (fs : FS) n :
  (forall m, (m < n)%nat -> is_Some (fs !! backup_name path m)) ->
  (n <= size fs)%nat.
Proof.
  intros Hused.
  assert (backup_name path <$> seq 0 n ⊆+ (map_to_list fs).*1) as Hsub.
  { apply NoDup_submseteq.
    - pose proof (backup_name_inj path) as Hinj.
      apply (NoDup_fmap_2 (backup_name path)), NoDup_seq.
    - intros x (m & -> & Hm%elem_of_seq)%list_elem_of_fmap.
      destruct (Hused m) as [c Hc]; [lia|].
      apply list_elem_of_fmap. exists (backup_name path m, c).
      split; [done|]. by apply elem_of_map_to_list. }
  apply submseteq_length in Hsub.
  by rewrite !length_fmap, length_seq, length_map_to_list in Hsub.
Qed.

Lemma first_free_backup_name path (fs : FS) :
  exists k,
    (k <= size fs)%nat /\
    fs !! backup_name path k = None /\
    forall m, (m < k)%nat -> is_Some (fs !! backup_name path m).
Proof.
  assert (forall n,
    (forall m, (m < n)%nat -> is_Some (fs !! backup_name path m)) \/
    exists k, (k < n)%nat /\ fs !! backup_name path k = None /\
      forall m, (m < k)%nat -> is_Some (fs !! backup_name path m)) as Hscan.
  { induction n as [|n [Hused | (k & Hk & Hfree & Hbelow)]].
    - left. lia.
    - destruct (fs !! backup_name path n) as [c|] eqn:Hn.
      + left. intros m Hm. destruct (decide (m = n)) as [->|]; [by eexists|].
        apply Hused. lia.
      + right. exists n. split; [lia|]. split; [done|]. intros m Hm. by apply Hused.
    - right. exists k. split; [lia|]. done. }
  destruct (Hscan (S (size fs))) as [Hused | (k & Hk & Hfree & Hbelow)].
  - apply backup_names_run_out in Hused. lia.
  - exists k. split; [lia|]. done.
Qed.

(** [safe_backup] finishes once the fuel covers the size of the file system. *)
Lemma safe_backup_finishes path (fs : FS) fuel :
  (size fs <= fuel)%nat ->
  exists k,
    (k <= size fs)%nat /\
    fs !! backup_name path k = None /\
    (forall m, (m < k)%nat -> is_Some (fs !! backup_name path m)) /\
    safe_backup fuel path fs = move_to_backup path (backup_name path k) fs.
Proof.
  intros Hfuel. destruct (first_free_backup_name path fs) as (k & Hk & Hfree & Hused).
  exists k. repeat split; try done. apply safe_backup_first; [lia|done..].
Qed.

(** Whatever [move_to_backup] does, a file other than the source that was
    there stays as it was, and the size does not grow. *)
Lemma move_to_backup_keeps path bak (fs fs' : FS) r q :
  fs !! bak = None ->
  move_to_backup path bak fs = Some (fs', r) ->
  q <> pathlib.render path ->
  is_Some (fs !! q) -> fs' !! q = fs !! q.
Proof.
  intros Hfree Hmove Hq [c Hc]. unfold move_to_backup in Hmove.
  destruct (fs !! pathlib.render path) as [c0|]; simplify_eq; [|done].
  rewrite lookup_insert_ne by congruence. by rewrite lookup_delete_ne.
Qed.

Lemma move_to_backup_size path bak (fs fs' : FS) r :
  move_to_backup path bak fs = Some (fs', r) -> (size fs' <= size fs)%nat.
Proof.
  unfold move_to_backup. destruct (fs !! pathlib.render path) as [c0|] eqn:Hsrc;
    intros ?; simplify_eq; [|done].
  rewrite map_size_insert. pose proof (map_size_delete_Some (pathlib.render path) fs
    (mk_is_Some _ _ Hsrc)).
  assert (0 < size fs)%nat.
  { destruct (decide (size fs = 0%nat)) as [Hz|]; [|lia].
    apply map_size_empty_inv in Hz. subst. by rewrite lookup_empty in Hsrc. }
  destruct (delete _ _ !! bak); simpl; lia.
Qed.

(** ** Facts about one conversion *)

Lemma replace_runs src dst (fs : FS) :
  exists fs' r,
    replace src dst fs = Some (fs', r) /\
    (size fs' <= size fs)%nat /\
    forall q, q <> src -> q <> dst -> fs' !! q = fs !! q.
Proof.
  unfold replace. destruct (fs !! src) as [c|] eqn:Hsrc; eexists _, _;
    (split; [done|]); [|done].
  split.
  - rewrite map_size_insert.
    pose proof (map_size_delete_Some src fs (mk_is_Some _ _ Hsrc)).
    assert (size fs <> 0)%nat.
    { intros Hz%map_size_empty_inv. subst. by rewrite lookup_empty in Hsrc. }
    destruct (delete _ _ !! dst); simpl; lia.
  - intros q Hq1 Hq2. rewrite lookup_insert_ne by done. by rewrite lookup_delete_ne.
Qed.

Lemma convert_midi_runs in_path out_path mode (fs : FS) :
  exists fs' r,
    convert_midi in_path out_path mode fs = Some (fs', r) /\
    (size fs' <= S (size fs))%nat /\
    forall q, q <> out_path -> fs' !! q = fs !! q.
Proof.
  unfold convert_midi, mbind, Cmd_bind, MidiFile_open.
  destruct (fs !! in_path) as [[mid|e]|]; [|by eexists _, _; eauto..].
  destruct (convert_tracks mode (mido.tracks mid)) as [e|[trs counters]];
    simpl; [by eexists _, _; eauto|].
  destruct (save_runs (mido.set_tracks trs mid) out_path fs)
    as (fs' & r & -> & Hsize & Hkeep).
  destruct r as [e|[]]; by eexists _, _.
Qed.

Lemma write_with_overwrite_runs fuel path temp_out (fs : FS) :
  (size fs <= fuel)%nat ->
  exists fs' r,
    write_with_optional_overwrite fuel path temp_out true fs = Some (fs', r) /\
    (size fs' <= size fs)%nat /\
    forall q, q <> pathlib.render path -> q <> temp_out ->
      is_Some (fs !! q) -> fs' !! q = fs !! q.
Proof.
  intros Hfuel. unfold write_with_optional_overwrite, mbind, Cmd_bind. simpl.
  destruct (safe_backup_finishes path fs fuel Hfuel)
    as (k & _ & Hfree & _ & ->).
  destruct (move_to_backup path (backup_name path k) fs) as [[fs1 [e|bak]]|]
    eqn:Hmove.
  - eexists _, _. split; [done|].
    pose proof (move_to_backup_size _ _ _ _ _ Hmove).
    split; [done|]. intros q Hq _ Hthere.
    by eapply move_to_backup_keeps.
  - destruct (replace_runs temp_out (pathlib.render path) fs1)
      as (fs2 & r & Hrep & Hsize & Hkeep).
    rewrite Hrep. pose proof (move_to_backup_size _ _ _ _ _ Hmove).
    destruct r as [e|[]]; eexists _, _; (split; [done|]); (split; [lia|]);
      intros q Hq1 Hq2 Hthere; rewrite Hkeep by done;
      by eapply move_to_backup_keeps.
  - unfold move_to_backup in Hmove. by destruct (fs !! pathlib.render path).
Qed.

Lemma convert_one_runs fuel mode overwrite out_dir p (fs : FS) :
  (size fs < fuel)%nat ->
  exists fs' r,
    convert_one fuel mode overwrite out_dir p fs = Some (fs', r) /\
    (size fs' <= S (size fs))%nat /\
    forall q, q <> pathlib.render p ->
      q <> temp_out_of mode overwrite out_dir p ->
      is_Some (fs !! q) -> fs' !! q = fs !! q.
Proof.
  intros Hfuel. unfold convert_one, mbind, Cmd_bind.
  destruct (convert_midi_runs (pathlib.render p)
              (temp_out_of mode overwrite out_dir p) mode fs)
    as (fs1 & r1 & -> & Hsize1 & Hkeep1).
  destruct r1 as [e|counters].
  { eexists _, _. split; [done|]. split; [done|]. intros q _ Hq _. by apply Hkeep1. }
  destruct overwrite.
  - destruct (write_with_overwrite_runs fuel p (temp_out_of mode true out_dir p) fs1)
      as (fs2 & r2 & -> & Hsize2 & Hkeep2); [lia|].
    destruct r2 as [e|bak]; eexists _, _; (split; [done|]); (split; [lia|]);
      intros q Hq1 Hq2 Hthere; rewrite Hkeep2, Hkeep1; try done;
      by rewrite Hkeep1.
  - simpl. eexists _, _. split; [done|]. split; [done|].
    intros q _ Hq _. by apply Hkeep1.
Qed.

(** Repeated overwrite-conversions of one source leave every backup of it
    that is there as it was. *)
Lemma convert_repeatedly_keeps_backups fuel modes p :
  pathlib.suffix_ok p ->
  forall fs : FS,
    (size fs + length modes <= fuel)%nat ->
    exists fs',
      convert_repeatedly fuel modes p fs = Some fs' /\
      forall k c, fs !! backup_name p k = Some c ->
                  fs' !! backup_name p k = Some c.
Proof.
  intros Hok. induction modes as [|mode modes IH]; intros fs Hfuel; simpl in *.
  - by exists fs.
  - destruct (convert_one_runs fuel mode true "" p fs)
      as (fs1 & r & -> & Hsize & Hkeep); [lia|].
    destruct (IH fs1) as (fs' & -> & Hrest); [lia|].
    exists fs'. split; [done|]. intros k c Hk. apply Hrest.
    rewrite Hkeep; [done|apply backup_name_not_source| |by eexists].
    by apply backup_name_not_temp_out.
Qed.

(** ** Facts about the batch *)

Lemma batch_trace_length fuel mode overwrite out_dir files fs outcomes fs' :
  batch_trace fuel mode overwrite out_dir files fs outcomes fs' ->
  length outcomes = length files.
Proof. induction 1; simpl; congruence. Qed.

Lemma outcomes_partition {R : Type} files (outcomes : list (exn + R)) :
  length outcomes = length files ->
  succeeded outcomes + Z.of_nat (length (failure_lines files outcomes))
    = Z.of_nat (length files).
Proof.
  revert outcomes. induction files as [|p files IH]; intros [|[e|r] outcomes];
    simpl; intros Hlen; try done; injection Hlen as Hlen;
    specialize (IH outcomes Hlen); lia.
Qed.

Lemma batch_loop_runs fuel mode overwrite out_dir files :
  forall (st : BatchState) (fs : FS),
    (size fs + length files <= fuel)%nat ->
    exists fs' st' outcomes,
      batch_loop fuel mode overwrite out_dir files st fs = Some (fs', st') /\
      batch_trace fuel mode overwrite out_dir files fs outcomes fs' /\
      total_files st' = total_files st + succeeded outcomes /\
      failures st' = failures st ++ failure_lines files outcomes.
Proof.
  induction files as [|p files IH]; intros st fs Hfuel; simpl in *.
  - exists fs, st, []. split; [done|]. split; [constructor|].
    split; [simpl; lia|]. by rewrite app_nil_r.
  - destruct (convert_one_runs fuel mode overwrite out_dir p fs)
      as (fs1 & r & Hone & Hsize & _); [lia|].
    unfold batch_round. rewrite Hone.
    destruct r as [e|r].
    + destruct (IH (record_failure st p e) fs1) as (fs' & st' & os & -> & Htr & Hn & Hf);
        [lia|].
      exists fs', st', (inl e :: os). split; [done|].
      split; [by econstructor|]. split; [done|].
      rewrite Hf. simpl. by rewrite <-app_assoc.
    + destruct (IH (record_success st r) fs1) as (fs' & st' & os & -> & Htr & Hn & Hf);
        [lia|].
      exists fs', st', (inr r :: os). split; [done|].
      split; [by econstructor|].
      destruct r as [[[t c] cl] bak]. simpl in *. split; [lia|done].
Qed.

(** The message opens with succeeded/discovered and closes with the report. *)
Lemma batch_message_shape mode overwrite files st :
  exists middle,
    batch_message mode overwrite files st =
      ("Converted files: " +:+ pretty (total_files st) +:+ "/"
         +:+ pretty (Z.of_nat (length files)) +:+ nl)
      +:+ middle +:+ failure_report (failures st).
Proof.
  unfold batch_message.
  exists (("Total note events: " +:+ pretty (total_events st) +:+ nl
      +:+ "Total events changed: " +:+ pretty (total_changed st) +:+ nl)
     +:+ (if decide (mode = "K2A") then
            "Total clamped after +36: " +:+ pretty (total_clamped st) +:+ nl
          else "")
     +:+ (if overwrite then
            "Backups created: " +:+ pretty (total_backups st) +:+ nl
          else "")).
  case_decide; destruct overwrite; by rewrite ?string_app_assoc, ?string_app_nil_r.
Qed.

Lemma failure_report_cases (failures : list string) :
  (failures = [] -> failure_report failures = "") /\
  (failures <> [] -> (length failures <= 10)%nat ->
     failure_report failures =
       nl +:+ "Some files failed:" +:+ nl +:+ join_lines failures) /\
  ((10 < length failures)%nat ->
     failure_report failures =
       (nl +:+ "Some files failed:" +:+ nl +:+ join_lines (take 10 failures))
       +:+ nl +:+ "..." /\
     length (take 10 failures) = 10%nat).
Proof.
  unfold failure_report. repeat split.
  - intros ->. done.
  - intros Hne Hlen. case_decide; [done|]. case_decide; [lia|].
    by rewrite firstn_all2 by lia.
  - case_decide; [by subst; simpl in *; lia|]. by case_decide.
  - rewrite length_take. lia.
Qed.


(** ** Worked examples *)

(** Scenario A and Scenario B of the specification. *)
Example forward_0 : forward_koala_to_ableton 0 = (48, true, false).
Proof. reflexivity. Qed.

Example inverse_48 :
  inverse_ableton_to_koala 48 = (0, true) /\
  result_of (forward_koala_to_ableton 48) = 96.
Proof. split; reflexivity. Qed.

(** The one in-range note forward maps to itself: it is written again, with
    the value it had, and counted as changed and clamped. *)
Example forward_127 : forward_koala_to_ableton 127 = (127, true, true).
Proof. reflexivity. Qed.

(** After a clamp the round trip is lost: 119 and 127 both go to 127. *)
Example inverse_after_clamp :
  result_of (forward_koala_to_ableton 119) = 127 /\
  inverse_ableton_to_koala 127 = (87, true).
Proof. split; reflexivity. Qed.

(** Eleven files that cannot be opened: ten lines and the ellipsis. *)
Example eleven_failures :
  run_batch 11 "A2K" false "d/_converted" (replicate 11 b_mid) ∅ =
    Some (∅, "Converted files: 0/11
Total note events: 0
Total events changed: 0

Some files failed:
b.mid: [Errno 2] No such file or directory: 'd/b.mid'
b.mid: [Errno 2] No such file or directory: 'd/b.mid'
b.mid: [Errno 2] No such file or directory: 'd/b.mid'
b.mid: [Errno 2] No such file or directory: 'd/b.mid'
b.mid: [Errno 2] No such file or directory: 'd/b.mid'
b.mid: [Errno 2] No such file or directory: 'd/b.mid'
b.mid: [Errno 2] No such file or directory: 'd/b.mid'
b.mid: [Errno 2] No such file or directory: 'd/b.mid'
b.mid: [Errno 2] No such file or directory: 'd/b.mid'
b.mid: [Errno 2] No such file or directory: 'd/b.mid'
...").
Proof. by vm_compute. Qed.

(** Three conversions in place: three backups, none replaced. *)
Example three_backups :
  dom <$> convert_repeatedly 4 ["K2A"; "A2K"; "K2A"] a_mid
            {["d/a.mid" := Midi two_tracks]}
    = Some ({["d/a.mid"; "d/a.mid.bak"; "d/a.mid.bak1"; "d/a.mid.bak2"]} : gset string).
Proof. by vm_compute. Qed.

(** * The claims *)

(** C1: for every note n in [0,127] whose forward conversion does not clamp,
    the inverse of the forward result is exactly (n, forwardChanged): the
    note comes back, with the changed flag forward reported. *)
Theorem forward_inverse_round_trip n :
  0 <= n <= 127 ->
  clamped_of (forward_koala_to_ableton n) = false ->
  inverse_ableton_to_koala (result_of (forward_koala_to_ableton n))
    = (n, changed_of (forward_koala_to_ableton n)).
Proof.
  intros Hn Hclamp.
  destruct (forward_not_clamped n Hn Hclamp) as [-> Hle].
  unfold result_of, changed_of. simpl.
  pose proof (remap_note_bounds n Hn) as Hr.
  rewrite inverse_is_by_priority. unfold inverse_by_priority, candidate_n2.
  unfold OCTAVE_SHIFT in *. case_decide; [|lia].
  replace ((remap_note n).1 + 36 - 36) with (remap_note n).1 by lia.
  rewrite remap_note_involutive by done.
  unfold validates. rewrite bool_decide_eq_true_2; [done|].
  destruct (forward_not_clamped n Hn Hclamp) as [-> _]. done.
Qed.

Lemma forward_inverse_round_trip_witness :
  0 <= 0 <= 127 /\
  clamped_of (forward_koala_to_ableton 0) = false /\
  inverse_ableton_to_koala (result_of (forward_koala_to_ableton 0))
    = (0, changed_of (forward_koala_to_ableton 0)).
Proof.
  split; [lia|]. split; [reflexivity|].
  apply (forward_inverse_round_trip 0); [lia | reflexivity].
Defined.

(** C2: the permutation is a total involution on [0,31]: for every residue w
    in [0,31], permute(w) is in [0,31] and permute(permute(w)) = w. *)
Theorem permutation_is_involution w :
  0 <= w <= 31 ->
  0 <= remap_within_32 w <= 31 /\ remap_within_32 (remap_within_32 w) = w.
Proof.
  intros Hw. split; [by apply remap_within_32_range|].
  by apply remap_within_32_involutive.
Qed.

Lemma permutation_is_involution_witness :
  0 <= 5 <= 31 /\
  0 <= remap_within_32 5 <= 31 /\ remap_within_32 (remap_within_32 5) = 5.
Proof. split; [lia|]. apply (permutation_is_involution 5). lia. Defined.

(** C3: the inverse resolves its two candidates in this order: when n2 (the
    remap of note-36, defined only for note-36 in [0,127]) is defined and
    forward(n2) gives the note back, the result is (n2, true), whatever
    forward(note) gives; otherwise, when forward(note) gives the note back,
    the result is (note, false); otherwise the result is (note, false) as a
    fallback.  The function is the resolution order of the specification. *)
Theorem inverse_resolution_order note :
  (0 <= note - 36 <= 127 ->
   result_of (forward_koala_to_ableton (remap_note (note - 36)).1) = note ->
   inverse_ableton_to_koala note = ((remap_note (note - 36)).1, true)) /\
  (~ (0 <= note - 36 <= 127 /\
      result_of (forward_koala_to_ableton (remap_note (note - 36)).1) = note) ->
   result_of (forward_koala_to_ableton note) = note ->
   inverse_ableton_to_koala note = (note, false)) /\
  (~ (0 <= note - 36 <= 127 /\
      result_of (forward_koala_to_ableton (remap_note (note - 36)).1) = note) ->
   result_of (forward_koala_to_ableton note) <> note ->
   inverse_ableton_to_koala note = (note, false)) /\
  inverse_ableton_to_koala note = inverse_by_priority note.
Proof.
  split; [|split; [|split]]; [| | |apply inverse_is_by_priority];
    unfold inverse_ableton_to_koala, OCTAVE_SHIFT.
  - intros Hdef Hok2. case_decide; [|done].
    rewrite (bool_decide_eq_true_2 _ Hok2). simpl. by case_bool_decide.
  - intros Hno Hok1. case_decide; [|by case_bool_decide].
    rewrite bool_decide_eq_false_2 by tauto. simpl. by case_bool_decide.
  - intros Hno Hok1. case_decide; [|by case_bool_decide].
    rewrite bool_decide_eq_false_2 by tauto. simpl. by case_bool_decide.
Qed.

(** At 127 both candidates validate, and the shifted one wins. *)
Lemma inverse_resolution_order_witness :
  0 <= 127 - 36 <= 127 /\
  result_of (forward_koala_to_ableton (remap_note (127 - 36)).1) = 127 /\
  result_of (forward_koala_to_ableton 127) = 127 /\
  inverse_ableton_to_koala 127 = (87, true).
Proof.
  split; [lia|]. split; [reflexivity|]. split; [reflexivity|].
  apply (proj1 (inverse_resolution_order 127)); [lia | reflexivity].
Defined.

(** C4: no residue is a fixed point of the permutation; so for every note n
    in [0,127] remapNote reports wasChanged = true and forward applies the
    36-semitone shift (then clamps): the pass-through branch is never taken
    on in-range input. *)
Theorem no_fixed_point_always_shifted w n :
  0 <= w <= 31 ->
  0 <= n <= 127 ->
  remap_within_32 w <> w /\
  (remap_note n).2 = true /\
  forward_koala_to_ableton n =
    ((clamp_midi ((remap_note n).1 + 36)).1, true,
     (clamp_midi ((remap_note n).1 + 36)).2) /\
  forward_koala_to_ableton n <> (n, false, false).
Proof.
  intros Hw Hn. split; [by apply remap_within_32_moves|].
  split; [by rewrite remap_note_in_range|].
  rewrite forward_in_range by done. split; [done|]. by intros [=].
Qed.

Lemma no_fixed_point_always_shifted_witness :
  0 <= 9 <= 31 /\ 0 <= 60 <= 127 /\
  remap_within_32 9 <> 9 /\
  (remap_note 60).2 = true /\
  forward_koala_to_ableton 60 =
    ((clamp_midi ((remap_note 60).1 + 36)).1, true,
     (clamp_midi ((remap_note 60).1 + 36)).2) /\
  forward_koala_to_ableton 60 <> (60, false, false).
Proof.
  split; [lia|]. split; [lia|].
  apply (no_fixed_point_always_shifted 9 60); lia.
Defined.

(** C7: for every note n outside [0,127] (n < 0 or n > 127), remapNote(n)
    returns (n, false): the value is passed through, not rejected. *)
Theorem remap_note_passes_invalid n :
  n < 0 \/ n > 127 -> remap_note n = (n, false).
Proof. apply remap_note_out_of_range. Qed.

Lemma remap_note_passes_invalid_witness :
  (200 < 0 \/ 200 > 127) /\ remap_note 200 = (200, false).
Proof.
  split; [right; lia|]. apply (remap_note_passes_invalid 200). right. lia.
Defined.

(** C8: forward(119) is exactly (127, true, true): residue 23 maps to 27,
    base 96 gives 123, the shift gives 159, which saturates to 127. *)
Theorem forward_119_saturates :
  119 `mod` 32 = 23 /\
  remap_within_32 23 = 27 /\
  remap_note 119 = (123, true) /\
  123 + OCTAVE_SHIFT = 159 /\
  clamp_midi 159 = (127, true) /\
  forward_koala_to_ableton 119 = (127, true, true).
Proof. repeat split. Qed.

(** C5: an unknown mode is meant to make the conversion fail and write
    nothing.  On a file without any note-on or note-off event the mode is
    never looked at: with mode "XYZ" the call returns (0, 0, 0) and the output
    file is written. *)
Theorem unknown_mode_accepted_without_notes :
  "XYZ" <> "K2A" /\ "XYZ" <> "A2K" /\
  convert_midi "song.mid" "out.mid" "XYZ" {["song.mid" := Midi tempo_only]}
    = Some (<["out.mid" := Midi tempo_only]> {["song.mid" := Midi tempo_only]},
            inr (0, 0, 0)).
Proof.
  split; [done|]. split; [done|].
  rewrite (convert_midi_without_notes "song.mid" "out.mid" "XYZ" tempo_only);
    [|apply lookup_singleton_eq|repeat constructor].
  unfold mbind, Cmd_bind. by rewrite save_writable.
Qed.

(** C6: for every input file and valid mode, the event converter hands to
    the codec tracks that match the input's event by event: only the note
    field of a note-on or note-off event changes, and only to a transform
    output that differs from the original; timing, velocity, channel, kind
    and every other event are the same.  What reaches the output path is
    what the codec's [save] makes of these tracks: when it writes them to
    the end, the path holds them as saved. *)
Theorem convert_midi_frame in_path out_path mode mid (fs : FS) :
  mode = "K2A" \/ mode = "A2K" ->
  fs !! in_path = Some (Midi mid) ->
  exists trs counters,
    convert_tracks mode (mido.tracks mid) = inr (trs, counters) /\
    Forall2 (Forall2 (only_note_rewritten mode)) (mido.tracks mid) trs /\
    convert_midi in_path out_path mode fs =
      (save (mido.set_tracks trs mid) out_path;; mret counters) fs /\
    (writable (mido.set_tracks trs mid) = true ->
     convert_midi in_path out_path mode fs =
       Some (<[out_path := Midi (as_saved (mido.set_tracks trs mid))]> fs,
             inr counters)).
Proof.
  intros Hmode Hin.
  destruct (convert_tracks_valid mode (mido.tracks mid) Hmode)
    as (trs & counters & Hrun & Hframe).
  exists trs, counters. split; [done|]. split; [done|].
  assert (convert_midi in_path out_path mode fs =
            (save (mido.set_tracks trs mid) out_path;; mret counters) fs) as Hgo.
  { unfold convert_midi. unfold mbind at 1. unfold Cmd_bind at 1.
    unfold MidiFile_open. by rewrite Hin, Hrun. }
  split; [done|]. intros Hw. rewrite Hgo. unfold mbind, Cmd_bind.
  by rewrite save_writable.
Qed.

Lemma convert_midi_frame_witness :
  ("K2A" = "K2A" \/ "K2A" = "A2K") /\
  ({["song.mid" := Midi two_tracks]} : FS) !! "song.mid" = Some (Midi two_tracks) /\
  exists trs counters,
    convert_tracks "K2A" (mido.tracks two_tracks) = inr (trs, counters) /\
    Forall2 (Forall2 (only_note_rewritten "K2A")) (mido.tracks two_tracks) trs /\
    writable (mido.set_tracks trs two_tracks) = true /\
    convert_midi "song.mid" "out.mid" "K2A" {["song.mid" := Midi two_tracks]} =
      Some (<["out.mid" := Midi (as_saved (mido.set_tracks trs two_tracks))]>
              {["song.mid" := Midi two_tracks]}, inr counters).
Proof.
  split; [by left|]. split; [apply lookup_singleton_eq|].
  destruct (convert_midi_frame "song.mid" "out.mid" "K2A" two_tracks
              {["song.mid" := Midi two_tracks]} (or_introl eq_refl)
              (lookup_singleton_eq _ _))
    as (trs & counters & Hrun & Hframe & _ & Hsaved).
  exists trs, counters. split; [done|]. split; [done|].
  assert (writable (mido.set_tracks trs two_tracks) = true) as Hw.
  { vm_compute in Hrun. injection Hrun as <- _. reflexivity. }
  split; [done|]. by apply Hsaved.
Defined.

(** C9: [safe_backup] picks the first name not already present among
    <original>.bak, <original>.bak1, <original>.bak2, ...; it rewrites no
    file that exists other than the source it moves, and through any sequence
    of repeated overwrite-conversions of the same source every backup that
    exists keeps its content; when <original>.bak is there and
    <original>.bak1 is not, the backup is <original>.bak1. *)
Theorem safe_backup_first_unused path (fs : FS) fuel :
  (size fs <= fuel)%nat ->
  (backup_name path 0 = pathlib.render path +:+ ".bak" /\
   forall k, backup_name path (S k) =
     pathlib.render path +:+ ".bak" +:+ pretty (Z.of_nat (S k))) /\
  (exists k,
     (k <= size fs)%nat /\
     fs !! backup_name path k = None /\
     (forall m, (m < k)%nat -> is_Some (fs !! backup_name path m)) /\
     safe_backup fuel path fs =
       match fs !! pathlib.render path with
       | Some c =>
           Some (<[backup_name path k := c]> (delete (pathlib.render path) fs),
                 inr (backup_name path k))
       | None =>
           Some (fs, inl (FileNotFoundError (pathlib.render path)
                            (Some (backup_name path k))))
       end) /\
  (exists fs' r,
     safe_backup fuel path fs = Some (fs', r) /\
     forall q, q <> pathlib.render path -> is_Some (fs !! q) ->
               fs' !! q = fs !! q) /\
  (forall modes,
     pathlib.suffix_ok path ->
     (size fs + length modes <= fuel)%nat ->
     exists fs',
       convert_repeatedly fuel modes path fs = Some fs' /\
       forall k c, fs !! backup_name path k = Some c ->
                   fs' !! backup_name path k = Some c) /\
  (forall c,
     fs !! pathlib.render path = Some c ->
     is_Some (fs !! (pathlib.render path +:+ ".bak")) ->
     fs !! (pathlib.render path +:+ ".bak1") = None ->
     safe_backup fuel path fs =
       Some (<[pathlib.render path +:+ ".bak1" := c]>
               (delete (pathlib.render path) fs),
             inr (pathlib.render path +:+ ".bak1"))).
Proof.
  intros Hfuel.
  destruct (safe_backup_finishes path fs fuel Hfuel)
    as (k & Hk & Hfree & Hused & Hrun).
  split; [split; [apply backup_name_0 | apply backup_name_S]|].
  split; [by exists k|]. split; [|split].
  - rewrite Hrun.
    destruct (move_to_backup path (backup_name path k) fs) as [[fs' r]|] eqn:Hmove.
    + exists fs', r. split; [done|]. intros q Hq Hthere.
      by eapply move_to_backup_keeps.
    + unfold move_to_backup in Hmove. by destruct (fs !! pathlib.render path).
  - intros modes Hok Hfuel'. by apply convert_repeatedly_keeps_backups.
  - intros c Hsrc Hbak Hbak1. rewrite <-backup_name_0 in Hbak.
    rewrite <-backup_name_1 in *.
    rewrite (safe_backup_first path fs fuel 1); [|..|done].
    + unfold move_to_backup. by rewrite Hsrc.
    + pose proof (backup_names_run_out path fs 1) as Hone.
      etrans; [apply Hone|done]. intros m Hm. by replace m with 0%nat by lia.
    + intros m Hm. by replace m with 0%nat by lia.
Qed.

(** Scenario E: [a.mid.bak] is there, [a.mid.bak1] is not. *)
Lemma safe_backup_first_unused_witness :
  (size a_mid_and_bak <= 2)%nat /\
  safe_backup 2 a_mid a_mid_and_bak =
    Some (<["d/a.mid.bak1" := Midi two_tracks]> (delete "d/a.mid" a_mid_and_bak),
          inr "d/a.mid.bak1").
Proof.
  assert (size a_mid_and_bak <= 2)%nat as Hsize by (vm_compute; lia).
  split; [done|].
  apply (proj2 (proj2 (proj2 (proj2
           (safe_backup_first_unused a_mid a_mid_and_bak 2 Hsize)))));
    [reflexivity | by eexists | reflexivity].
Defined.

(** C10: in a batch a file that raises is caught at the file boundary and
    recorded as name and message; the batch goes on, every file is run; the
    summary opens with succeeded out of discovered and closes with at most
    ten failure lines, then "..." when there are more than ten. *)
Theorem batch_isolates_failures fuel mode overwrite out_dir files (fs : FS) :
  (size fs + length files <= fuel)%nat ->
  exists fs' st outcomes,
    batch_loop fuel mode overwrite out_dir files batch_start fs = Some (fs', st) /\
    run_batch fuel mode overwrite out_dir files fs
      = Some (fs', batch_message mode overwrite files st) /\
    batch_trace fuel mode overwrite out_dir files fs outcomes fs' /\
    length outcomes = length files /\
    total_files st = succeeded outcomes /\
    failures st = failure_lines files outcomes /\
    total_files st + Z.of_nat (length (failures st)) = Z.of_nat (length files) /\
    (exists middle,
       batch_message mode overwrite files st =
         ("Converted files: " +:+ pretty (total_files st) +:+ "/"
            +:+ pretty (Z.of_nat (length files)) +:+ nl)
         +:+ middle +:+ failure_report (failures st)) /\
    (failures st = [] -> failure_report (failures st) = "") /\
    (failures st <> [] -> (length (failures st) <= 10)%nat ->
       failure_report (failures st) =
         nl +:+ "Some files failed:" +:+ nl +:+ join_lines (failures st)) /\
    ((10 < length (failures st))%nat ->
       failure_report (failures st) =
         (nl +:+ "Some files failed:" +:+ nl
            +:+ join_lines (take 10 (failures st)))
         +:+ nl +:+ "..." /\
       length (take 10 (failures st)) = 10%nat).
Proof.
  intros Hfuel.
  destruct (batch_loop_runs fuel mode overwrite out_dir files batch_start fs Hfuel)
    as (fs' & st & outcomes & Hloop & Htrace & Hfiles & Hfail).
  simpl in Hfiles, Hfail.
  pose proof (batch_trace_length _ _ _ _ _ _ _ _ Htrace) as Hlen.
  exists fs', st, outcomes. split; [done|].
  split; [unfold run_batch; by rewrite Hloop|]. split; [done|].
  split; [done|]. split; [lia|]. split; [done|].
  split; [rewrite Hfail; pose proof (outcomes_partition files outcomes Hlen); lia|].
  split; [apply batch_message_shape|]. apply failure_report_cases.
Qed.

(** Two files, the second missing: the first is converted and backed up, the
    second is reported, and the batch ends normally. *)
Lemma batch_isolates_failures_witness :
  (size a_mid_and_bak + length [b_mid; a_mid] <= 4)%nat /\
  exists fs' st outcomes,
    batch_loop 4 "K2A" true "d/_converted" [b_mid; a_mid] batch_start a_mid_and_bak
      = Some (fs', st) /\
    batch_trace 4 "K2A" true "d/_converted" [b_mid; a_mid] a_mid_and_bak outcomes fs' /\
    total_files st + Z.of_nat (length (failures st)) = 2.
Proof.
  assert (size a_mid_and_bak + length [b_mid; a_mid] <= 4)%nat as Hfuel
    by (vm_compute; lia).
  split; [done|].
  destruct (batch_isolates_failures 4 "K2A" true "d/_converted" [b_mid; a_mid]
              a_mid_and_bak Hfuel)
    as (fs' & st & outcomes & Hloop & _ & Htrace & _ & _ & _ & Hsum & _).
  by exists fs', st, outcomes.
Defined.

(** * Further properties of the mapping core *)

(** Quotient and residue of an in-range note, ready for linear arithmetic. *)
Lemma in_range_split n :
  0 <= n <= 127 -> exists q w, n = 32 * q + w /\ 0 <= q <= 3 /\ 0 <= w <= 31.
Proof.
  intros Hn. exists (n `div` 32), (n `mod` 32).
  pose proof (Z.div_mod n 32). pose proof (Z.mod_pos_bound n 32). lia.
Qed.

Lemma remap_note_split q w :
  0 <= q <= 3 -> 0 <= w <= 31 ->
  (remap_note (32 * q + w)).1 = 32 * q + remap_within_32 w.
Proof.
  intros Hq Hw. rewrite remap_note_in_range by lia. simpl.
  replace ((32 * q + w) `mod` 32) with w; [lia|].
  apply Z.mod_unique with q; lia.
Qed.

Lemma clamp_midi_bounds n : 0 <= (clamp_midi n).1 <= 127.
Proof. unfold clamp_midi. repeat case_decide; simpl; lia. Qed.

Lemma forward_result_range n :
  0 <= n <= 127 -> 36 <= result_of (forward_koala_to_ableton n) <= 127.
Proof.
  intros Hn. rewrite forward_in_range by done. unfold result_of. simpl.
  pose proof (remap_note_bounds n Hn). unfold clamp_midi, OCTAVE_SHIFT.
  repeat case_decide; simpl; lia.
Qed.

Lemma forward_clamps_iff n :
  0 <= n <= 127 ->
  clamped_of (forward_koala_to_ableton n) = true <-> 80 <= n <= 83 \/ 96 <= n.
Proof.
  intros Hn. rewrite forward_in_range by done. unfold clamped_of. simpl.
  destruct (in_range_split n Hn) as (q & w & -> & Hq & Hw).
  rewrite remap_note_split by done.
  unfold clamp_midi, remap_within_32, OCTAVE_SHIFT.
  repeat case_decide; simpl; split; intros; (done || lia).
Qed.

(** The shifted candidate of the inverse always validates on [36,127]. *)
Lemma shifted_candidate_validates m :
  36 <= m <= 127 ->
  forward_koala_to_ableton (remap_note (m - 36)).1 = (m, true, false).
Proof.
  intros Hm. assert (0 <= m - 36 <= 127) as Hu by lia.
  pose proof (remap_note_bounds _ Hu) as Hb.
  rewrite forward_in_range by done.
  rewrite remap_note_involutive by done. unfold OCTAVE_SHIFT.
  replace (m - 36 + 36) with m by lia. by rewrite clamp_midi_in_range by lia.
Qed.

Lemma inverse_on_shifted m :
  36 <= m <= 127 ->
  inverse_ableton_to_koala m = ((remap_note (m - 36)).1, true).
Proof.
  intros Hm. rewrite inverse_is_by_priority.
  unfold inverse_by_priority, candidate_n2, validates. case_decide; [|lia].
  by rewrite shifted_candidate_validates, bool_decide_eq_true_2.
Qed.

Lemma inverse_elsewhere m :
  ~ 36 <= m <= 127 -> inverse_ableton_to_koala m = (m, false).
Proof.
  intros Hm. rewrite inverse_is_by_priority.
  unfold inverse_by_priority, candidate_n2, validates.
  case_decide; [|by case_bool_decide].
  rewrite bool_decide_eq_false_2; [by case_bool_decide|].
  assert (0 <= m - 36 <= 127) as Hu by lia.
  pose proof (remap_note_bounds _ Hu) as Hb.
  rewrite forward_in_range by done. unfold result_of. simpl.
  pose proof (clamp_midi_bounds ((remap_note (remap_note (m - 36)).1).1
                                   + OCTAVE_SHIFT)).
  lia.
Qed.

(** Forward then inverse on one note, for any integer: the note and the flag
    come back unless the forward step clamped. *)
Lemma note_round_trip n :
  clamped_of (forward_koala_to_ableton n) = false ->
  inverse_ableton_to_koala (result_of (forward_koala_to_ableton n))
    = (n, changed_of (forward_koala_to_ableton n)).
Proof.
  intros Hc. destruct (decide (0 <= n <= 127)) as [Hn|Hn].
  - destruct (forward_not_clamped n Hn Hc) as [-> Hle].
    unfold result_of, changed_of, OCTAVE_SHIFT in *. simpl.
    pose proof (remap_note_bounds n Hn).
    rewrite inverse_on_shifted by lia.
    replace ((remap_note n).1 + 36 - 36) with (remap_note n).1 by lia.
    by rewrite remap_note_involutive.
  - rewrite forward_out_of_range by lia. unfold result_of, changed_of. simpl.
    destruct (decide (36 <= n <= 127)); [lia|]. by rewrite inverse_elsewhere.
Qed.

(** X1: on [0,127] [remap_note] moves every note to another note of the same
    block of 32, inside [0,127], and applying it twice gives the note back. *)
Theorem remap_note_within_block n :
  0 <= n <= 127 ->
  0 <= (remap_note n).1 <= 127 /\
  (remap_note n).1 `div` 32 = n `div` 32 /\
  (remap_note n).1 <> n /\
  remap_note (remap_note n).1 = (n, true).
Proof.
  intros Hn. pose proof (remap_note_bounds n Hn) as Hb.
  split; [done|]. split; [|split].
  - destruct (in_range_split n Hn) as (q & w & -> & Hq & Hw).
    rewrite remap_note_split by done.
    pose proof (remap_within_32_range w Hw).
    rewrite <-(Z.div_unique _ 32 q (remap_within_32 w)) by lia.
    apply Z.div_unique with w; lia.
  - rewrite remap_note_in_range by done. simpl.
    pose proof (remap_within_32_moves _ (residue_range n)). lia.
  - pose proof (remap_note_involutive n Hn) as Hinv.
    rewrite (remap_note_in_range (remap_note n).1) in Hinv |- * by done.
    simpl in Hinv. by rewrite Hinv.
Qed.

Lemma remap_note_within_block_witness :
  0 <= 70 <= 127 /\
  0 <= (remap_note 70).1 <= 127 /\
  (remap_note 70).1 `div` 32 = 70 `div` 32 /\
  (remap_note 70).1 <> 70 /\
  remap_note (remap_note 70).1 = (70, true).
Proof. split; [lia|]. apply (remap_note_within_block 70). lia. Defined.

(** X2: on [0,127] the forward result lies in [36,127], and the clamp strikes
    exactly the notes 80..83 and 96..127, each of which becomes 127. *)
Theorem forward_range_and_clamp n :
  0 <= n <= 127 ->
  36 <= result_of (forward_koala_to_ableton n) <= 127 /\
  (clamped_of (forward_koala_to_ableton n) = true <->
   80 <= n <= 83 \/ 96 <= n) /\
  (clamped_of (forward_koala_to_ableton n) = true ->
   result_of (forward_koala_to_ableton n) = 127).
Proof.
  intros Hn. split; [by apply forward_result_range|].
  split; [by apply forward_clamps_iff|].
  rewrite forward_in_range by done. unfold result_of, clamped_of. simpl.
  pose proof (remap_note_bounds n Hn). unfold clamp_midi, OCTAVE_SHIFT.
  repeat case_decide; simpl; intros; (done || lia).
Qed.

Lemma forward_range_and_clamp_witness :
  0 <= 81 <= 127 /\
  36 <= result_of (forward_koala_to_ableton 81) <= 127 /\
  (clamped_of (forward_koala_to_ableton 81) = true <->
   80 <= 81 <= 83 \/ 96 <= 81) /\
  (clamped_of (forward_koala_to_ableton 81) = true ->
   result_of (forward_koala_to_ableton 81) = 127).
Proof. split; [lia|]. apply (forward_range_and_clamp 81). lia. Defined.

(** X3: for any integer, forward reports a change exactly on [0,127]; outside
    it hands the value back with both flags down. *)
Theorem forward_changes_exactly_in_range n :
  (changed_of (forward_koala_to_ableton n) = true <-> 0 <= n <= 127) /\
  (~ 0 <= n <= 127 -> forward_koala_to_ableton n = (n, false, false)).
Proof.
  destruct (decide (0 <= n <= 127)) as [Hn|Hn].
  - rewrite forward_in_range by done. unfold changed_of. simpl. done.
  - rewrite forward_out_of_range by lia. unfold changed_of. simpl.
    split; [|done]. split; [intros [=] | done].
Qed.

Lemma forward_changes_exactly_in_range_witness :
  ~ 0 <= 130 <= 127 /\ forward_koala_to_ableton 130 = (130, false, false).
Proof.
  split; [lia|]. apply (proj2 (forward_changes_exactly_in_range 130)). lia.
Defined.

(** X4: the inverse in closed form.  On [36,127] it undoes the shift and the
    remap and reports a change; every other integer comes back untouched. *)
Theorem inverse_closed_form m :
  (36 <= m <= 127 ->
   inverse_ableton_to_koala m = ((remap_note (m - 36)).1, true)) /\
  (~ 36 <= m <= 127 -> inverse_ableton_to_koala m = (m, false)).
Proof. split; [apply inverse_on_shifted | apply inverse_elsewhere]. Qed.

Lemma inverse_closed_form_witness :
  36 <= 48 <= 127 /\ ~ 36 <= 20 <= 127 /\
  inverse_ableton_to_koala 48 = ((remap_note (48 - 36)).1, true) /\
  inverse_ableton_to_koala 20 = (20, false).
Proof.
  split; [lia|]. split; [lia|]. split.
  - apply (proj1 (inverse_closed_form 48)). lia.
  - apply (proj2 (inverse_closed_form 20)). lia.
Defined.

(** X5: forward undoes the inverse on [36,127]: the note the inverse returns
    is in [0,127] and forward sends it back, unclamped.  So every note of
    [36,127] is a forward result, and no note below 36 is. *)
Theorem forward_undoes_inverse m :
  36 <= m <= 127 ->
  0 <= (inverse_ableton_to_koala m).1 <= 127 /\
  forward_koala_to_ableton (inverse_ableton_to_koala m).1 = (m, true, false).
Proof.
  intros Hm. rewrite inverse_on_shifted by done. simpl.
  split; [apply remap_note_bounds; lia|]. by apply shifted_candidate_validates.
Qed.

Lemma forward_undoes_inverse_witness :
  36 <= 127 <= 127 /\
  0 <= (inverse_ableton_to_koala 127).1 <= 127 /\
  forward_koala_to_ableton (inverse_ableton_to_koala 127).1 = (127, true, false).
Proof. split; [lia|]. apply (forward_undoes_inverse 127). lia. Defined.

(** X6: a clamp loses the note: when forward clamps an in-range note, the
    inverse of its result is 87, which is never the note that was clamped. *)
Theorem clamp_loses_the_note n :
  0 <= n <= 127 ->
  clamped_of (forward_koala_to_ableton n) = true ->
  inverse_ableton_to_koala (result_of (forward_koala_to_ableton n)) = (87, true) /\
  n <> 87.
Proof.
  intros Hn Hc. pose proof (proj1 (forward_clamps_iff n Hn) Hc) as Hwhich.
  split; [|lia]. revert Hc.
  rewrite forward_in_range by done. unfold result_of, clamped_of. simpl.
  pose proof (remap_note_bounds n Hn). unfold clamp_midi, OCTAVE_SHIFT.
  repeat case_decide; simpl; intros; (done || lia).
Qed.

Lemma clamp_loses_the_note_witness :
  0 <= 119 <= 127 /\
  clamped_of (forward_koala_to_ableton 119) = true /\
  inverse_ableton_to_koala (result_of (forward_koala_to_ableton 119)) = (87, true) /\
  119 <> 87.
Proof.
  split; [lia|]. split; [reflexivity|].
  apply (clamp_loses_the_note 119); [lia | reflexivity].
Defined.

(** X7: forward is one-to-one on the notes it does not clamp. *)
Theorem forward_injective_unclamped n1 n2 :
  0 <= n1 <= 127 -> 0 <= n2 <= 127 ->
  clamped_of (forward_koala_to_ableton n1) = false ->
  clamped_of (forward_koala_to_ableton n2) = false ->
  result_of (forward_koala_to_ableton n1) = result_of (forward_koala_to_ableton n2) ->
  n1 = n2.
Proof.
  intros H1 H2 Hc1 Hc2 Heq.
  pose proof (note_round_trip n1 Hc1) as Hr1.
  pose proof (note_round_trip n2 Hc2) as Hr2.
  rewrite Heq in Hr1. congruence.
Qed.

Lemma forward_injective_unclamped_witness :
  0 <= 5 <= 127 /\
  clamped_of (forward_koala_to_ableton 5) = false /\
  result_of (forward_koala_to_ableton 5) = result_of (forward_koala_to_ableton 5) /\
  5 = 5.
Proof.
  split; [lia|]. split; [reflexivity|]. split; [reflexivity|].
  apply (forward_injective_unclamped 5 5); (lia || reflexivity).
Defined.

(** X8: in either mode an in-range note is converted to an in-range note. *)
Theorem converted_note_in_range mode n :
  mode = "K2A" \/ mode = "A2K" ->
  0 <= n <= 127 ->
  0 <= converted_note mode n <= 127.
Proof.
  intros [-> | ->] Hn; unfold converted_note; simpl.
  - pose proof (forward_result_range n Hn). lia.
  - destruct (decide (36 <= n <= 127)) as [Hm|Hm].
    + rewrite inverse_on_shifted by done. simpl. apply remap_note_bounds. lia.
    + by rewrite inverse_elsewhere.
Qed.

Lemma converted_note_in_range_witness :
  ("A2K" = "K2A" \/ "A2K" = "A2K") /\ 0 <= 100 <= 127 /\
  0 <= converted_note "A2K" 100 <= 127.
Proof.
  split; [by right|]. split; [lia|].
  apply (converted_note_in_range "A2K" 100); [by right | lia].
Defined.

(** * Further properties of the event converter *)

Lemma count_events_app P l1 l2 :
  count_events P (l1 ++ l2) = count_events P l1 + count_events P l2.
Proof. induction l1 as [|m l1 IH]; simpl; [done|]. rewrite IH. lia. Qed.

Lemma count_events_nonneg P l : 0 <= count_events P l.
Proof. induction l as [|m l IH]; simpl; [done|]. destruct (P m); simpl; lia. Qed.

Lemma count_events_zero P l :
  count_events P l = 0 -> Forall (fun msg => P msg = false) l.
Proof.
  induction l as [|m l IH]; simpl; intros Hz; [done|].
  pose proof (count_events_nonneg P l).
  destruct (P m) eqn:Hm; simpl in Hz; [lia|]. constructor; [done|]. apply IH. lia.
Qed.

Lemma count_events_ext P Q l :
  Forall (fun msg => P msg = Q msg) l -> count_events P l = count_events Q l.
Proof. induction 1 as [|m l Hm _ IH]; simpl; [done|]. by rewrite Hm, IH. Qed.

Lemma count_events_le P Q l :
  (forall msg, P msg = true -> Q msg = true) ->
  count_events P l <= count_events Q l.
Proof.
  intros Himp. induction l as [|m l IH]; simpl; [done|].
  specialize (Himp m).
  destruct (P m), (Q m); simpl; first [lia | by specialize (Himp eq_refl)].
Qed.

(** One round of the inner loop in a valid mode, with its effect on the
    counters. *)
Lemma convert_msg_exact mode msg t c cl :
  mode = "K2A" \/ mode = "A2K" ->
  convert_msg mode msg (t, c, cl) =
    inr (rewrite_msg mode msg,
         (t + Z.b2z (is_note_event msg),
          c + Z.b2z (is_note_event msg && did_change mode (mido.note msg)),
          cl + Z.b2z (is_note_event msg && did_clamp mode (mido.note msg)))).
Proof.
  intros Hmode.
  unfold convert_msg, rewrite_msg, is_note_event, converted_note, did_change,
    did_clamp.
  case_bool_decide; simpl; [|by rewrite !Z.add_0_r].
  destruct Hmode as [-> | ->]; simpl.
  - pose proof (forward_unchanged (mido.note msg)) as Hsame.
    unfold changed_of, result_of, clamped_of in *.
    destruct (forward_koala_to_ableton _) as [[new [|]] [|]]; simpl in *;
      rewrite ?Hsame, ?set_note_same, ?Z.add_0_r by done; done.
  - pose proof (inverse_unchanged (mido.note msg)) as Hsame.
    destruct (inverse_ableton_to_koala _) as [new [|]]; simpl in *;
      rewrite ?Hsame, ?set_note_same, ?Z.add_0_r by done; done.
Qed.

Lemma convert_track_exact mode track :
  mode = "K2A" \/ mode = "A2K" ->
  forall t c cl,
    for_each (convert_msg mode) track (t, c, cl) =
      inr (map (rewrite_msg mode) track,
           (t + count_events is_note_event track,
            c + count_events
                  (fun msg => is_note_event msg && did_change mode (mido.note msg))
                  track,
            cl + count_events
                   (fun msg => is_note_event msg && did_clamp mode (mido.note msg))
                   track)).
Proof.
  intros Hmode. induction track as [|msg track IH]; intros t c cl;
    cbn [for_each count_events map].
  - by rewrite !Z.add_0_r.
  - rewrite convert_msg_exact, IH by done. by rewrite !Z.add_assoc.
Qed.

Lemma convert_tracks_from mode tracks :
  mode = "K2A" \/ mode = "A2K" ->
  forall t c cl,
    for_each (for_each (convert_msg mode)) tracks (t, c, cl) =
      inr (map (map (rewrite_msg mode)) (tracks),
           (t + (tally mode tracks).1.1,
            c + (tally mode tracks).1.2,
            cl + (tally mode tracks).2)).
Proof.
  intros Hmode. unfold tally. simpl.
  induction tracks as [|track tracks IH]; intros t c cl;
    cbn [for_each concat map count_events].
  - by rewrite !Z.add_0_r.
  - rewrite convert_track_exact, IH by done.
    by rewrite !count_events_app, !Z.add_assoc.
Qed.

Lemma convert_tracks_exact mode tracks :
  mode = "K2A" \/ mode = "A2K" ->
  convert_tracks mode tracks =
    inr (map (map (rewrite_msg mode)) (tracks), tally mode tracks).
Proof.
  intros Hmode. unfold convert_tracks. rewrite convert_tracks_from by done.
  by destruct (tally mode tracks) as [[t c] cl].
Qed.

(** In a valid mode [convert_midi] hands the rewritten file to [save], and
    returns the tally when [save] returns. *)
Lemma convert_midi_exact in_path out_path mode mid (fs : FS) :
  mode = "K2A" \/ mode = "A2K" ->
  fs !! in_path = Some (Midi mid) ->
  convert_midi in_path out_path mode fs =
    (save (converted mode mid) out_path;; mret (tally mode (mido.tracks mid))) fs.
Proof.
  intros Hmode Hin. unfold convert_midi. unfold mbind at 1. unfold Cmd_bind at 1.
  unfold MidiFile_open. by rewrite Hin, convert_tracks_exact.
Qed.

(** *** Rewriting the events and closing the tracks do not interfere *)

Lemma type_rewrite mode msg : mido.type (rewrite_msg mode msg) = mido.type msg.
Proof. unfold rewrite_msg. by destruct (is_note_event msg). Qed.

Lemma time_rewrite mode msg : mido.time (rewrite_msg mode msg) = mido.time msg.
Proof. unfold rewrite_msg. by destruct (is_note_event msg). Qed.

Lemma is_realtime_rewrite mode msg :
  mido.is_realtime (rewrite_msg mode msg) = mido.is_realtime msg.
Proof. unfold mido.is_realtime. by rewrite type_rewrite. Qed.

Lemma rewrite_set_time mode delta msg :
  rewrite_msg mode (mido.set_time delta msg)
    = mido.set_time delta (rewrite_msg mode msg).
Proof. unfold rewrite_msg, is_note_event. simpl. by case_bool_decide. Qed.

Lemma rewrite_end_of_track mode accum :
  rewrite_msg mode (mido.end_of_track_message accum)
    = mido.end_of_track_message accum.
Proof. done. Qed.

Lemma fix_end_of_track_from_rewrite mode track :
  forall accum,
    mido.fix_end_of_track_from accum (map (rewrite_msg mode) track)
      = map (rewrite_msg mode) (mido.fix_end_of_track_from accum track).
Proof.
  induction track as [|msg track IH]; intros accum; simpl; [done|].
  rewrite type_rewrite, time_rewrite.
  repeat case_decide; simpl; by rewrite IH, ?rewrite_set_time.
Qed.

Lemma fix_end_of_track_rewrite mode track :
  mido.fix_end_of_track (map (rewrite_msg mode) track)
    = map (rewrite_msg mode) (mido.fix_end_of_track track).
Proof. apply fix_end_of_track_from_rewrite. Qed.

Lemma existsb_is_realtime_rewrite mode track :
  existsb mido.is_realtime (map (rewrite_msg mode) track)
    = existsb mido.is_realtime track.
Proof.
  induction track as [|msg track IH]; simpl; [done|].
  by rewrite is_realtime_rewrite, IH.
Qed.

(** Closing a track that is closed leaves it as it is. *)
Lemma fix_end_of_track_from_fixed track :
  forall accum,
    mido.fix_end_of_track_from 0 (mido.fix_end_of_track_from accum track)
      = mido.fix_end_of_track_from accum track.
Proof.
  induction track as [|msg track IH]; intros accum; simpl.
  - by rewrite N.add_0_l.
  - case_decide as Hend; [apply IH|].
    case_decide; simpl; repeat case_decide; try done; by rewrite IH.
Qed.

Lemma fix_end_of_track_fixed track :
  mido.fix_end_of_track (mido.fix_end_of_track track)
    = mido.fix_end_of_track track.
Proof. apply fix_end_of_track_from_fixed. Qed.

Lemma map_fix_end_of_track_fixed tracks :
  map mido.fix_end_of_track (map mido.fix_end_of_track tracks)
    = map mido.fix_end_of_track tracks.
Proof.
  rewrite map_map. apply map_ext. intros track. apply fix_end_of_track_fixed.
Qed.

Lemma as_saved_fixed mid : as_saved (as_saved mid) = as_saved mid.
Proof.
  unfold as_saved, mido.set_tracks. simpl. by rewrite map_fix_end_of_track_fixed.
Qed.

Lemma as_saved_converted mode mid :
  as_saved (converted mode mid) = converted mode (as_saved mid).
Proof.
  unfold as_saved, converted, mido.set_tracks. simpl. f_equal.
  rewrite !map_map. apply map_ext. intros track. apply fix_end_of_track_rewrite.
Qed.

Lemma writable_converted mode mid : writable (converted mode mid) = writable mid.
Proof.
  unfold writable, converted. simpl. rewrite length_map. f_equal.
  induction (mido.tracks mid) as [|track tracks IH]; simpl; [done|].
  by rewrite IH, fix_end_of_track_rewrite, existsb_is_realtime_rewrite.
Qed.

Lemma writable_as_saved mid : writable (as_saved mid) = writable mid.
Proof.
  unfold writable, as_saved. simpl. rewrite length_map. f_equal.
  induction (mido.tracks mid) as [|track tracks IH]; simpl; [done|].
  by rewrite IH, fix_end_of_track_fixed.
Qed.

(** Closing a track neither adds nor removes a note event, nor changes the
    note of one. *)
Lemma count_events_fix_end_of_track_from P track :
  (forall msg, mido.type msg = "end_of_track" -> P msg = false) ->
  (forall delta msg, P (mido.set_time delta msg) = P msg) ->
  forall accum,
    count_events P (mido.fix_end_of_track_from accum track) = count_events P track.
Proof.
  intros Hend Htime. induction track as [|msg track IH]; intros accum; simpl.
  - by rewrite Hend.
  - repeat case_decide; simpl; rewrite IH, ?Htime, ?Hend by done; done.
Qed.

Lemma is_note_event_set_time delta msg :
  is_note_event (mido.set_time delta msg) = is_note_event msg.
Proof. done. Qed.

Lemma is_note_event_end_of_track msg :
  mido.type msg = "end_of_track" -> is_note_event msg = false.
Proof. unfold is_note_event. by intros ->. Qed.

Lemma count_events_fixed P tracks :
  (forall msg, mido.type msg = "end_of_track" -> P msg = false) ->
  (forall delta msg, P (mido.set_time delta msg) = P msg) ->
  count_events P (concat (map mido.fix_end_of_track tracks))
    = count_events P (concat tracks).
Proof.
  intros Hend Htime. induction tracks as [|track tracks IH]; simpl; [done|].
  rewrite !count_events_app, IH. f_equal.
  by apply count_events_fix_end_of_track_from.
Qed.

Lemma tally_fixed mode tracks :
  tally mode (map mido.fix_end_of_track tracks) = tally mode tracks.
Proof.
  unfold tally. rewrite !count_events_fixed; try done;
    intros msg Hmsg; by rewrite is_note_event_end_of_track.
Qed.

(** On a writable file a valid mode returns, and the output holds the
    rewritten file with its tracks closed; and it returns on no other. *)
Lemma convert_midi_writable in_path out_path mode mid (fs : FS) :
  mode = "K2A" \/ mode = "A2K" ->
  fs !! in_path = Some (Midi mid) ->
  writable mid = true ->
  convert_midi in_path out_path mode fs =
    Some (<[out_path := Midi (converted mode (as_saved mid))]> fs,
          inr (tally mode (mido.tracks mid))).
Proof.
  intros Hmode Hin Hw. rewrite (convert_midi_exact _ _ _ mid) by done.
  unfold mbind, Cmd_bind.
  rewrite save_writable by (by rewrite writable_converted).
  by rewrite as_saved_converted.
Qed.

Lemma convert_midi_returns in_path out_path mode mid (fs fs' : FS) counters :
  mode = "K2A" \/ mode = "A2K" ->
  fs !! in_path = Some (Midi mid) ->
  convert_midi in_path out_path mode fs = Some (fs', inr counters) ->
  writable mid = true /\
  fs' = <[out_path := Midi (converted mode (as_saved mid))]> fs /\
  counters = tally mode (mido.tracks mid).
Proof.
  intros Hmode Hin. rewrite (convert_midi_exact _ _ _ mid) by done.
  unfold mbind, Cmd_bind.
  destruct (save (converted mode mid) out_path fs) as [[fs1 [e|u]]|] eqn:Hsave;
    [done| |done].
  apply save_returns in Hsave as [Hw ->]. intros [= <- <-].
  by rewrite writable_converted, as_saved_converted in *.
Qed.

(** X9: in a valid mode the two loops count the note-on and note-off events,
    those of them the transform reports as changed, and those it reports as
    clamped; these are the counters [convert_midi] returns whenever it
    returns, and it returns on every file that [save] can write. *)
Theorem convert_midi_counters in_path out_path mode mid (fs : FS) :
  mode = "K2A" \/ mode = "A2K" ->
  fs !! in_path = Some (Midi mid) ->
  let counted :=
    (count_events is_note_event (concat (mido.tracks mid)),
     count_events
       (fun msg => is_note_event msg && did_change mode (mido.note msg))
       (concat (mido.tracks mid)),
     count_events
       (fun msg => is_note_event msg && did_clamp mode (mido.note msg))
       (concat (mido.tracks mid))) in
  (exists trs, convert_tracks mode (mido.tracks mid) = inr (trs, counted)) /\
  (forall fs' counters,
     convert_midi in_path out_path mode fs = Some (fs', inr counters) ->
     counters = counted) /\
  (writable mid = true ->
   exists fs', convert_midi in_path out_path mode fs = Some (fs', inr counted)).
Proof.
  intros Hmode Hin. simpl. split; [|split].
  - eexists. by rewrite convert_tracks_exact.
  - intros fs' counters Hrun.
    by destruct (convert_midi_returns _ _ _ _ _ _ _ Hmode Hin Hrun) as (_ & _ & ->).
  - intros Hw. eexists. by rewrite (convert_midi_writable _ _ _ mid).
Qed.

Lemma convert_midi_counters_witness :
  ("K2A" = "K2A" \/ "K2A" = "A2K") /\
  ({["song.mid" := Midi two_tracks]} : FS) !! "song.mid" = Some (Midi two_tracks) /\
  exists fs',
    convert_midi "song.mid" "out.mid" "K2A" {["song.mid" := Midi two_tracks]} =
      Some (fs', inr (2, 2, 0)).
Proof.
  split; [by left|]. split; [apply lookup_singleton_eq|].
  destruct (convert_midi_counters "song.mid" "out.mid" "K2A" two_tracks
              {["song.mid" := Midi two_tracks]}) as (_ & _ & Hruns);
    [by left | apply lookup_singleton_eq |].
  exact (Hruns eq_refl).
Defined.

Lemma for_each_invariant {A S : Type} (body : A -> S -> exn + (A * S))
    (I : S -> Prop) (l : list A) :
  (forall a s a' s', I s -> body a s = inr (a', s') -> I s') ->
  forall s l' s', I s -> for_each body l s = inr (l', s') -> I s'.
Proof.
  intros Hbody. induction l as [|a l IH]; intros s l' s' Hs; simpl.
  - by intros [= <- <-].
  - destruct (body a s) as [e|[a1 s1]] eqn:Hb; [done|].
    destruct (for_each body l s1) as [e|[l2 s2]] eqn:Hl; [done|].
    intros [= <- <-]. eapply IH; [|done]. by eapply Hbody.
Qed.

Lemma forward_clamped_is_changed n :
  clamped_of (forward_koala_to_ableton n) = true ->
  changed_of (forward_koala_to_ableton n) = true.
Proof.
  unfold forward_koala_to_ableton, clamped_of, changed_of.
  destruct (remap_note n) as [r [|]]; [|done]. by destruct (clamp_midi _).
Qed.

Lemma convert_msg_ordered mode msg s msg' s' :
  counters_ordered mode s ->
  convert_msg mode msg s = inr (msg', s') ->
  counters_ordered mode s'.
Proof.
  destruct s as [[t c] cl]. unfold counters_ordered, convert_msg. simpl.
  intros (H1 & H2 & H3). case_bool_decide; [|by intros [= <- <-]].
  case_decide as Hk; [|case_decide; [|done]].
  - pose proof (forward_clamped_is_changed (mido.note msg)) as Himp.
    unfold clamped_of, changed_of in Himp.
    destruct (forward_koala_to_ableton _) as [[new [|]] [|]]; simpl in *;
      intros [= <- <-]; simpl;
      first [split; [lia|]; split; [lia|done] | by specialize (Himp eq_refl)].
  - destruct (inverse_ableton_to_koala _) as [new [|]]; intros [= <- <-]; simpl;
      (split; [lia|]; split; [lia|]); intros _; by apply H3.
Qed.

Lemma convert_midi_ordered in_path out_path mode (fs fs' : FS) counters :
  convert_midi in_path out_path mode fs = Some (fs', inr counters) ->
  counters_ordered mode counters.
Proof.
  unfold convert_midi, mbind, Cmd_bind, MidiFile_open.
  destruct (fs !! in_path) as [[mid|e]|]; [|done..].
  destruct (convert_tracks mode (mido.tracks mid)) as [e|[trs s]] eqn:Hrun; [done|].
  simpl. destruct (save _ _ _) as [[fs1 [e|u]]|]; [done| |done].
  intros [= _ ->].
  apply (for_each_invariant _ (counters_ordered mode)) in Hrun; [done| |].
  - intros track s trs1 s1 Hs.
    apply (for_each_invariant _ (counters_ordered mode)); [|done].
    intros msg s2 msg' s3. apply convert_msg_ordered.
  - unfold counters_ordered. simpl. lia.
Qed.

(** X10: whenever [convert_midi] returns counters, in any mode, they satisfy
    [0 <= clamped <= changed <= total], and clamped is 0 outside K2A. *)
Theorem convert_midi_counters_ordered in_path out_path mode (fs fs' : FS) t c cl :
  convert_midi in_path out_path mode fs = Some (fs', inr (t, c, cl)) ->
  0 <= cl <= c /\ c <= t /\ (mode <> "K2A" -> cl = 0).
Proof. intros Hrun. exact (convert_midi_ordered _ _ _ _ _ _ Hrun). Qed.

Lemma convert_midi_counters_ordered_witness :
  convert_midi "song.mid" "out.mid" "K2A" {["song.mid" := Midi two_tracks]}
    = Some (<["out.mid" := Midi (converted "K2A" (as_saved two_tracks))]>
              {["song.mid" := Midi two_tracks]},
            inr (2, 2, 0)) /\
  0 <= 0 <= 2 /\ 2 <= 2 /\ ("K2A" <> "K2A" -> 0 = 0).
Proof.
  assert (convert_midi "song.mid" "out.mid" "K2A" {["song.mid" := Midi two_tracks]}
    = Some (<["out.mid" := Midi (converted "K2A" (as_saved two_tracks))]>
              {["song.mid" := Midi two_tracks]},
            inr (2, 2, 0))) as Hrun.
  { apply (convert_midi_writable "song.mid" "out.mid" "K2A" two_tracks);
      [by left | apply lookup_singleton_eq | done]. }
  split; [done|].
  exact (convert_midi_counters_ordered _ _ _ _ _ _ _ _ Hrun).
Defined.

Lemma set_note_set_note a b msg :
  mido.set_note a (mido.set_note b msg) = mido.set_note a msg.
Proof. by destruct msg. Qed.

Lemma is_note_event_rewrite mode msg :
  is_note_event (rewrite_msg mode msg) = is_note_event msg.
Proof. unfold rewrite_msg. by destruct (is_note_event msg) eqn:Hn. Qed.

(** An event that K2A did not clamp is restored by A2K, and is counted as
    changed by both or by neither. *)
Lemma rewrite_round_trip msg :
  is_note_event msg && did_clamp "K2A" (mido.note msg) = false ->
  rewrite_msg "A2K" (rewrite_msg "K2A" msg) = msg /\
  did_change "A2K" (mido.note (rewrite_msg "K2A" msg)) && is_note_event msg
    = did_change "K2A" (mido.note msg) && is_note_event msg.
Proof.
  intros Hc. unfold rewrite_msg at 1.
  rewrite is_note_event_rewrite. unfold rewrite_msg.
  destruct (is_note_event msg) eqn:Hnote; simpl in *; [|by rewrite !andb_false_r].
  unfold did_clamp in Hc. simpl in Hc.
  pose proof (note_round_trip (mido.note msg) Hc) as Hrt.
  unfold converted_note, did_change. simpl. rewrite Hrt. simpl.
  by rewrite set_note_set_note, set_note_same.
Qed.

Lemma count_events_map P f l :
  count_events P (map f l) = count_events (fun msg => P (f msg)) l.
Proof. induction l as [|m l IH]; simpl; [done|]. by rewrite IH. Qed.

Lemma map_map_restores (f : mido.Message -> mido.Message) P tracks :
  (forall msg, P msg = false -> f msg = msg) ->
  Forall (fun msg => P msg = false) (concat tracks) ->
  map (map f) tracks = tracks.
Proof.
  intros Hf. induction tracks as [|track tracks IH]; simpl; [done|].
  intros [Htrack Hrest]%Forall_app. rewrite IH by done. f_equal.
  induction Htrack as [|m l Hm _ IHl]; simpl; [done|]. by rewrite Hf, IHl.
Qed.

(** With no clamp counted, rewriting K2A and then A2K gives the file back. *)
Lemma rewrite_file_round_trip mid :
  (tally "K2A" (mido.tracks mid)).2 = 0 ->
  converted "A2K" (converted "K2A" mid) = mid.
Proof.
  intros Hcl. unfold tally in Hcl. simpl in Hcl. apply count_events_zero in Hcl.
  destruct mid as [ty tpb tracks]. unfold converted, mido.set_tracks. simpl in *.
  f_equal. rewrite map_map.
  rewrite (map_ext (fun track => map (rewrite_msg "A2K") (map (rewrite_msg "K2A") track))
             (map (fun msg => rewrite_msg "A2K" (rewrite_msg "K2A" msg))))
    by (intros; apply map_map).
  apply (map_map_restores _
           (fun msg => is_note_event msg && did_clamp "K2A" (mido.note msg)));
    [|done].
  intros msg Hmsg. by apply rewrite_round_trip.
Qed.

Lemma tally_round_trip tracks :
  (tally "K2A" tracks).2 = 0 ->
  tally "A2K" (map (map (rewrite_msg "K2A")) tracks) = tally "K2A" tracks.
Proof.
  intros Hcl. unfold tally in *. simpl in *. rewrite Hcl.
  apply count_events_zero in Hcl.
  rewrite <-!concat_map, !count_events_map. f_equal; [f_equal|].
  - apply count_events_ext, Forall_forall. intros msg _.
    apply is_note_event_rewrite.
  - apply count_events_ext. eapply Forall_impl; [exact Hcl|].
    intros msg Hmsg. simpl in Hmsg. rewrite is_note_event_rewrite.
    destruct (rewrite_round_trip msg Hmsg) as [_ Hflag].
    by rewrite (andb_comm (is_note_event msg)), Hflag, andb_comm.
  - clear. induction (concat tracks) as [|m l IH]; simpl; [done|].
    rewrite IH. unfold did_clamp. simpl. by rewrite andb_false_r.
Qed.

Lemma as_saved_closed mid :
  Forall (fun track => mido.fix_end_of_track track = track) (mido.tracks mid) ->
  as_saved mid = mid.
Proof.
  intros Hclosed. unfold as_saved.
  assert (map mido.fix_end_of_track (mido.tracks mid) = mido.tracks mid) as ->.
  { induction Hclosed as [|track tracks Htrack _ IH]; simpl; [done|].
    by rewrite Htrack, IH. }
  apply set_tracks_same.
Qed.

Lemma tracks_as_saved mid :
  mido.tracks (as_saved mid) = map mido.fix_end_of_track (mido.tracks mid).
Proof. done. Qed.

Lemma tracks_converted mode mid :
  mido.tracks (converted mode mid) = map (map (rewrite_msg mode)) (mido.tracks mid).
Proof. done. Qed.

(** The file K2A wrote, converted A2K: the original with its tracks closed. *)
Lemma second_leg tmp_path out_path mid (fs1 : FS) :
  writable mid = true ->
  (tally "K2A" (mido.tracks mid)).2 = 0 ->
  fs1 !! tmp_path = Some (Midi (converted "K2A" (as_saved mid))) ->
  convert_midi tmp_path out_path "A2K" fs1
    = Some (<[out_path := Midi (as_saved mid)]> fs1,
            inr (tally "K2A" (mido.tracks mid))).
Proof.
  intros Hw Hcl Htmp.
  assert ((tally "K2A" (mido.tracks (as_saved mid))).2 = 0) as Hcl'.
  { by rewrite tracks_as_saved, tally_fixed. }
  rewrite (convert_midi_writable tmp_path out_path "A2K"
             (converted "K2A" (as_saved mid)));
    [|by right|done|by rewrite writable_converted, writable_as_saved].
  rewrite as_saved_converted, as_saved_fixed, rewrite_file_round_trip by done.
  rewrite tracks_converted, tally_round_trip by done.
  by rewrite tracks_as_saved, tally_fixed.
Qed.

(** X11: a file converted K2A with no clamp reported and then converted A2K
    comes back as the original with every track closed by one end_of_track
    (what [save] makes of it), and the second run reports the same total and
    changed counts as the first.  It comes back as the original itself when
    its tracks are closed already, as they are in a file [save] wrote. *)
Theorem file_round_trip in_path tmp_path out_path mid (fs fs1 : FS) t c :
  fs !! in_path = Some (Midi mid) ->
  convert_midi in_path tmp_path "K2A" fs = Some (fs1, inr (t, c, 0)) ->
  convert_midi tmp_path out_path "A2K" fs1
    = Some (<[out_path := Midi (as_saved mid)]> fs1, inr (t, c, 0)) /\
  (Forall (fun track => mido.fix_end_of_track track = track) (mido.tracks mid) ->
   as_saved mid = mid) /\
  (forall mid0, mid = as_saved mid0 -> as_saved mid = mid).
Proof.
  intros Hin Hfwd.
  destruct (convert_midi_returns _ _ _ _ _ _ _ (or_introl eq_refl) Hin Hfwd)
    as (Hw & -> & Htally).
  split; [|split; [apply as_saved_closed | intros mid0 ->; apply as_saved_fixed]].
  rewrite Htally. apply second_leg; [done|by rewrite <-Htally|].
  by rewrite lookup_insert_eq.
Qed.

Lemma file_round_trip_witness :
  ({["song.mid" := Midi two_tracks]} : FS) !! "song.mid" = Some (Midi two_tracks) /\
  convert_midi "ableton.mid" "back.mid" "A2K"
    (<["ableton.mid" := Midi (converted "K2A" (as_saved two_tracks))]>
       {["song.mid" := Midi two_tracks]})
    = Some (<["back.mid" := Midi (as_saved two_tracks)]>
              (<["ableton.mid" := Midi (converted "K2A" (as_saved two_tracks))]>
                 {["song.mid" := Midi two_tracks]}),
            inr (2, 2, 0)) /\
  as_saved two_tracks = two_tracks.
Proof.
  split; [apply lookup_singleton_eq|].
  destruct (file_round_trip "song.mid" "ableton.mid" "back.mid" two_tracks
              {["song.mid" := Midi two_tracks]}
              (<["ableton.mid" := Midi (converted "K2A" (as_saved two_tracks))]>
                 {["song.mid" := Midi two_tracks]}) 2 2)
    as (Hback & Hclosed & _).
  - apply lookup_singleton_eq.
  - apply (convert_midi_writable "song.mid" "ableton.mid" "K2A" two_tracks);
      [by left | apply lookup_singleton_eq | done].
  - split; [exact Hback|]. apply Hclosed. by repeat constructor.
Defined.

Lemma for_each_length {A S : Type} (body : A -> S -> exn + (A * S)) l :
  forall s l' s', for_each body l s = inr (l', s') -> length l' = length l.
Proof.
  induction l as [|a l IH]; intros s l' s'; simpl.
  - by intros [= <- _].
  - destruct (body a s) as [e|[a1 s1]]; [done|].
    destruct (for_each body l s1) as [e|[l2 s2]] eqn:Hl; [done|].
    intros [= <- _]. simpl. f_equal. by eapply IH.
Qed.

(** X12: what [convert_midi] does to the file system.  It always ends, and
    no path but the output path changes.  It opens the input before anything
    else, so a missing input raises [FileNotFoundError] and an unreadable one
    raises the codec's error, whatever the mode; after these, and after a
    raise inside the two loops, nothing has been written.  When it raises
    later, in [save], the file system is as it was or the output path holds
    a truncated file.  When it returns, the output path holds a MIDI file
    with the input's header and as many tracks. *)
Theorem convert_midi_effects in_path out_path mode (fs : FS) :
  exists fs' r,
    convert_midi in_path out_path mode fs = Some (fs', r) /\
    (fs !! in_path = None ->
       r = inl (FileNotFoundError in_path None) /\ fs' = fs) /\
    (forall e, fs !! in_path = Some (Unreadable e) -> r = inl e /\ fs' = fs) /\
    (forall mid e,
       fs !! in_path = Some (Midi mid) ->
       convert_tracks mode (mido.tracks mid) = inl e ->
       r = inl e /\ fs' = fs) /\
    (forall e, r = inl e -> fs' = fs \/ fs' = <[out_path := truncated]> fs) /\
    (forall counters, r = inr counters ->
       exists mid trs,
         fs !! in_path = Some (Midi mid) /\
         length trs = length (mido.tracks mid) /\
         fs' = <[out_path := Midi (mido.set_tracks trs mid)]> fs) /\
    (forall q, q <> out_path -> fs' !! q = fs !! q).
Proof.
  unfold convert_midi, mbind, Cmd_bind, MidiFile_open.
  destruct (fs !! in_path) as [[mid|e]|] eqn:Hin;
    [destruct (convert_tracks mode (mido.tracks mid)) as [e|[trs counters]] eqn:Hrun;
       simpl;
       [|unfold save; cbn [mido.tracks mido.set_tracks mido.midi_type];
         case_decide as Htype;
           [|destruct (write_tracks trs) as [e|written] eqn:Hw; simpl]]|..];
    (eexists _, _; split; [done|]); split_and!; intros; simplify_eq;
    try done; try (by left); try (by right);
    try (by rewrite lookup_insert_ne); try (split; congruence).
  eexists _, _. split; [done|]. split; [|done].
  apply write_tracks_returns in Hw as [_ ->]. rewrite length_map.
  by eapply for_each_length.
Qed.

Lemma convert_midi_effects_witness :
  (∅ : FS) !! "gone.mid" = None /\
  convert_midi "gone.mid" "out.mid" "XYZ" ∅
    = Some (∅, inl (FileNotFoundError "gone.mid" None)).
Proof.
  split; [reflexivity|].
  destruct (convert_midi_effects "gone.mid" "out.mid" "XYZ" ∅)
    as (fs' & r & Hrun & Hmissing & _).
  rewrite Hrun. by destruct (Hmissing eq_refl) as [-> ->].
Defined.

(** * Further properties of backups and in-place conversion *)

Lemma direction_suffix_length mode :
  (0 < String.length (direction_suffix mode))%nat.
Proof. unfold direction_suffix. case_decide; simpl; lia. Qed.

(** The staging file of an in-place conversion is never the source. *)
Lemma temp_out_not_source mode out_dir p :
  temp_out_of mode true out_dir p <> pathlib.render p.
Proof.
  intros Heq. apply (f_equal String.length) in Heq.
  unfold temp_out_of, pathlib.with_name, pathlib.render, pathlib.joinpath,
    pathlib.name in Heq.
  rewrite !string_app_length in Heq.
  pose proof (direction_suffix_length mode). lia.
Qed.

(** Without overwrite the body under [try] is the conversion alone. *)
Lemma convert_one_without_overwrite fuel mode out_dir p (fs : FS) :
  convert_one fuel mode false out_dir p fs =
    match convert_midi (pathlib.render p) (temp_out_of mode false out_dir p) mode fs with
    | Some (fs1, inr counters) => Some (fs1, inr (counters, None))
    | Some (fs1, inl e) => Some (fs1, inl e)
    | None => None
    end.
Proof.
  unfold convert_one, mbind, Cmd_bind.
  by destruct (convert_midi _ _ _ fs) as [[fs1 [e|counters]]|].
Qed.

(** An in-place conversion of a file [save] can write, step by step. *)
Lemma in_place_conversion_runs fuel mode out_dir p mid (fs : FS) :
  mode = "K2A" \/ mode = "A2K" ->
  pathlib.suffix_ok p ->
  (size fs < fuel)%nat ->
  fs !! pathlib.render p = Some (Midi mid) ->
  writable mid = true ->
  exists k fs',
    convert_one fuel mode true out_dir p fs
      = Some (fs', inr (tally mode (mido.tracks mid), Some (backup_name p k))) /\
    fs !! backup_name p k = None /\
    (forall j, (j < k)%nat -> is_Some (fs !! backup_name p j)) /\
    fs' !! backup_name p k = Some (Midi mid) /\
    fs' !! pathlib.render p = Some (Midi (converted mode (as_saved mid))) /\
    fs' !! temp_out_of mode true out_dir p = None /\
    (forall q, q <> pathlib.render p -> q <> temp_out_of mode true out_dir p ->
               q <> backup_name p k -> fs' !! q = fs !! q).
Proof.
  intros Hmode Hok Hfuel Hsrc Hw.
  set (temp := temp_out_of mode true out_dir p).
  set (conv := Midi (converted mode (as_saved mid))).
  set (fs1 := <[temp := conv]> fs).
  assert (temp <> pathlib.render p) as Hts by apply temp_out_not_source.
  assert (forall j, backup_name p j <> temp) as Hbt
    by (intros j; by apply backup_name_not_temp_out).
  assert (size fs1 <= fuel)%nat as Hfuel1.
  { unfold fs1. rewrite map_size_insert. destruct (fs !! temp); simpl; lia. }
  destruct (safe_backup_finishes p fs1 fuel Hfuel1) as (k & _ & Hfree & Hused & Hrun).
  pose proof (backup_name_not_source p k) as Hbs.
  exists k, (<[pathlib.render p := conv]>
               (delete temp (<[backup_name p k := Midi mid]>
                               (delete (pathlib.render p) fs1)))).
  split; [|split; [|split; [|split; [|split; [|split]]]]].
  - unfold convert_one, mbind, Cmd_bind. fold temp.
    rewrite (convert_midi_writable _ _ _ mid fs Hmode Hsrc Hw). fold conv fs1.
    unfold write_with_optional_overwrite, mbind, Cmd_bind. cbn [negb].
    rewrite Hrun. unfold move_to_backup.
    assert (fs1 !! pathlib.render p = Some (Midi mid)) as ->
      by (unfold fs1; by rewrite lookup_insert_ne).
    unfold replace.
    assert ((<[backup_name p k := Midi mid]> (delete (pathlib.render p) fs1))
              !! temp = Some conv) as ->.
    { rewrite lookup_insert_ne by done. rewrite lookup_delete_ne by done.
      unfold fs1. by rewrite lookup_insert_eq. }
    done.
  - unfold fs1 in Hfree. by rewrite lookup_insert_ne in Hfree.
  - intros j Hj. specialize (Hused j Hj). unfold fs1 in Hused.
    by rewrite lookup_insert_ne in Hused.
  - rewrite lookup_insert_ne by done. rewrite lookup_delete_ne by done.
    by rewrite lookup_insert_eq.
  - by rewrite lookup_insert_eq.
  - rewrite lookup_insert_ne by done. by rewrite lookup_delete_eq.
  - intros q Hq1 Hq2 Hq3. rewrite lookup_insert_ne by done.
    rewrite lookup_delete_ne by done. rewrite lookup_insert_ne by done.
    rewrite lookup_delete_ne by done. unfold fs1. by rewrite lookup_insert_ne.
Qed.

(** A file [save] cannot write: the conversion raises before any backup is
    made, and only the path it was writing to can have changed. *)
Lemma conversion_of_unwritable fuel mode overwrite out_dir p mid (fs : FS) :
  mode = "K2A" \/ mode = "A2K" ->
  fs !! pathlib.render p = Some (Midi mid) ->
  writable mid = false ->
  exists fs' e,
    convert_one fuel mode overwrite out_dir p fs = Some (fs', inl e) /\
    forall q, q <> temp_out_of mode overwrite out_dir p -> fs' !! q = fs !! q.
Proof.
  intros Hmode Hsrc Hw. unfold convert_one, mbind, Cmd_bind.
  destruct (convert_midi_runs (pathlib.render p)
              (temp_out_of mode overwrite out_dir p) mode fs)
    as (fs1 & r & Hrun & _ & Hkeep).
  rewrite Hrun. destruct r as [e|counters]; [by exists fs1, e|].
  destruct (convert_midi_returns _ _ _ _ _ _ _ Hmode Hsrc Hrun) as (Hw' & _).
  congruence.
Qed.

(** X13: converting a readable file in place, in a valid mode.  When [save]
    can write the file, the conversion succeeds: the backup is the first free
    backup name and holds the original, the path holds the converted file
    with its tracks closed, the staging file is gone, and nothing else has
    changed.  When [save] cannot, the conversion raises, the original is
    still at its path, no backup is made, and only the staging path can have
    changed. *)
Theorem convert_in_place fuel mode out_dir p mid (fs : FS) :
  mode = "K2A" \/ mode = "A2K" ->
  pathlib.suffix_ok p ->
  (size fs < fuel)%nat ->
  fs !! pathlib.render p = Some (Midi mid) ->
  (writable mid = true ->
   exists k fs',
     convert_one fuel mode true out_dir p fs
       = Some (fs', inr (tally mode (mido.tracks mid), Some (backup_name p k))) /\
     fs !! backup_name p k = None /\
     (forall j, (j < k)%nat -> is_Some (fs !! backup_name p j)) /\
     fs' !! backup_name p k = Some (Midi mid) /\
     fs' !! pathlib.render p = Some (Midi (converted mode (as_saved mid))) /\
     fs' !! temp_out_of mode true out_dir p = None /\
     (forall q, q <> pathlib.render p -> q <> temp_out_of mode true out_dir p ->
                q <> backup_name p k -> fs' !! q = fs !! q)) /\
  (writable mid = false ->
   exists fs' e,
     convert_one fuel mode true out_dir p fs = Some (fs', inl e) /\
     fs' !! pathlib.render p = Some (Midi mid) /\
     (forall q, q <> temp_out_of mode true out_dir p -> fs' !! q = fs !! q)).
Proof.
  intros Hmode Hok Hfuel Hsrc. split; intros Hw.
  - by apply in_place_conversion_runs.
  - destruct (conversion_of_unwritable fuel mode true out_dir p mid fs Hmode Hsrc Hw)
      as (fs' & e & Hrun & Hkeep).
    exists fs', e. split; [done|]. split; [|done].
    rewrite Hkeep; [done|]. intros Heq. by apply (temp_out_not_source mode out_dir p).
Qed.

Lemma convert_in_place_witness :
  ("K2A" = "K2A" \/ "K2A" = "A2K") /\
  pathlib.suffix_ok a_mid /\
  (size a_mid_and_bak < 3)%nat /\
  a_mid_and_bak !! pathlib.render a_mid = Some (Midi two_tracks) /\
  writable two_tracks = true /\
  exists k fs',
    convert_one 3 "K2A" true "" a_mid a_mid_and_bak
      = Some (fs', inr (tally "K2A" (mido.tracks two_tracks),
                        Some (backup_name a_mid k))) /\
    fs' !! backup_name a_mid k = Some (Midi two_tracks).
Proof.
  assert (pathlib.suffix_ok a_mid) as Hok by (right; by eexists).
  assert (size a_mid_and_bak < 3)%nat as Hfuel by (vm_compute; lia).
  assert (a_mid_and_bak !! pathlib.render a_mid = Some (Midi two_tracks)) as Hsrc
    by reflexivity.
  split; [by left|]. split; [done|]. split; [done|]. split; [done|].
  split; [reflexivity|].
  destruct (convert_in_place 3 "K2A" "" a_mid two_tracks a_mid_and_bak
              (or_introl eq_refl) Hok Hfuel Hsrc) as [Hruns _].
  destruct (Hruns eq_refl) as (k & fs' & Hrun & _ & _ & Hbak & _).
  by exists k, fs'.
Defined.

(** X14: an in-place K2A conversion that reports no clamp, followed by an
    in-place A2K conversion, on a file [save] can write: both runs succeed
    and report the same counters; the path ends up holding the original with
    every track closed by one end_of_track, which is the original itself when
    its tracks were closed already; the first backup holds the original. *)
Theorem in_place_round_trip fuel out_dir p mid (fs : FS) :
  pathlib.suffix_ok p ->
  (S (size fs) < fuel)%nat ->
  fs !! pathlib.render p = Some (Midi mid) ->
  writable mid = true ->
  (tally "K2A" (mido.tracks mid)).2 = 0 ->
  exists fs1 fs2 bak1 bak2,
    convert_one fuel "K2A" true out_dir p fs
      = Some (fs1, inr (tally "K2A" (mido.tracks mid), Some bak1)) /\
    convert_one fuel "A2K" true out_dir p fs1
      = Some (fs2, inr (tally "K2A" (mido.tracks mid), Some bak2)) /\
    fs2 !! pathlib.render p = Some (Midi (as_saved mid)) /\
    (Forall (fun track => mido.fix_end_of_track track = track) (mido.tracks mid) ->
     fs2 !! pathlib.render p = Some (Midi mid)) /\
    fs2 !! bak1 = Some (Midi mid) /\
    bak1 <> bak2.
Proof.
  intros Hok Hfuel Hsrc Hw Hcl.
  destruct (in_place_conversion_runs fuel "K2A" out_dir p mid fs (or_introl eq_refl) Hok)
    as (k1 & fs1 & Hrun1 & Hfree1 & _ & Hbak1 & Hconv1 & _); [lia|done|done|].
  destruct (convert_one_runs fuel "K2A" true out_dir p fs) as (fs1' & r & Hrun1' & Hsize & _);
    [lia|].
  rewrite Hrun1 in Hrun1'. injection Hrun1' as <- _.
  assert ((tally "K2A" (mido.tracks (as_saved mid))).2 = 0) as Hcl'.
  { by rewrite tracks_as_saved, tally_fixed. }
  destruct (in_place_conversion_runs fuel "A2K" out_dir p
              (converted "K2A" (as_saved mid)) fs1 (or_intror eq_refl) Hok)
    as (k2 & fs2 & Hrun2 & Hfree2 & _ & Hbak2 & Hconv2 & _ & Hkeep2);
    [lia|exact Hconv1|by rewrite writable_converted, writable_as_saved|].
  rewrite as_saved_converted, as_saved_fixed, rewrite_file_round_trip in Hconv2
    by done.
  rewrite tracks_converted, tally_round_trip in Hrun2 by done.
  rewrite tracks_as_saved, tally_fixed in Hrun2.
  assert (backup_name p k1 <> backup_name p k2) as Hne.
  { intros Heq. rewrite <-Heq in Hfree2. by rewrite Hbak1 in Hfree2. }
  exists fs1, fs2, (backup_name p k1), (backup_name p k2).
  split; [done|]. split; [done|]. split; [done|].
  split; [intros Hclosed; by rewrite (as_saved_closed mid Hclosed) in Hconv2|].
  split; [|done].
  rewrite Hkeep2; [done|apply backup_name_not_source| |done].
  by apply backup_name_not_temp_out.
Qed.

Lemma in_place_round_trip_witness :
  pathlib.suffix_ok a_mid /\
  (S (size a_mid_and_bak) < 4)%nat /\
  a_mid_and_bak !! pathlib.render a_mid = Some (Midi two_tracks) /\
  writable two_tracks = true /\
  (tally "K2A" (mido.tracks two_tracks)).2 = 0 /\
  exists fs1 fs2 bak1 bak2,
    convert_one 4 "K2A" true "" a_mid a_mid_and_bak
      = Some (fs1, inr (tally "K2A" (mido.tracks two_tracks), Some bak1)) /\
    convert_one 4 "A2K" true "" a_mid fs1
      = Some (fs2, inr (tally "K2A" (mido.tracks two_tracks), Some bak2)) /\
    fs2 !! pathlib.render a_mid = Some (Midi (as_saved two_tracks)).
Proof.
  assert (pathlib.suffix_ok a_mid) as Hok by (right; by eexists).
  assert (S (size a_mid_and_bak) < 4)%nat as Hfuel by (vm_compute; lia).
  assert (a_mid_and_bak !! pathlib.render a_mid = Some (Midi two_tracks)) as Hsrc
    by reflexivity.
  assert (writable two_tracks = true) as Hw by reflexivity.
  assert ((tally "K2A" (mido.tracks two_tracks)).2 = 0) as Hcl by reflexivity.
  split; [done|]. split; [done|]. split; [done|]. split; [done|]. split; [done|].
  destruct (in_place_round_trip 4 "" a_mid two_tracks a_mid_and_bak Hok Hfuel Hsrc
              Hw Hcl)
    as (fs1 & fs2 & bak1 & bak2 & H1 & H2 & H3 & _).
  by exists fs1, fs2, bak1, bak2.
Defined.

(** X15: when the staging file is missing, [write_with_optional_overwrite]
    has already moved the original to its backup when the promotion raises:
    the call fails with the [FileNotFoundError] of the rename of the staging
    file, the first free backup name holds the original, and the original
    path is left empty. *)
Theorem promotion_failure_strands_original fuel p temp_out c (fs : FS) :
  (size fs <= fuel)%nat ->
  fs !! pathlib.render p = Some c ->
  fs !! temp_out = None ->
  (forall k, backup_name p k <> temp_out) ->
  exists k fs',
    write_with_optional_overwrite fuel p temp_out true fs
      = Some (fs', inl (FileNotFoundError temp_out (Some (pathlib.render p)))) /\
    fs' !! pathlib.render p = None /\
    fs' !! backup_name p k = Some c /\
    fs !! backup_name p k = None /\
    (forall m, (m < k)%nat -> is_Some (fs !! backup_name p m)).
Proof.
  intros Hfuel Hsrc Htemp Hbt.
  destruct (safe_backup_finishes p fs fuel Hfuel) as (k & _ & Hfree & Hused & Hrun).
  pose proof (backup_name_not_source p k) as Hbs.
  exists k, (<[backup_name p k := c]> (delete (pathlib.render p) fs)).
  split; [|split; [|split; [|split]]]; [| | |done|done].
  - unfold write_with_optional_overwrite, mbind, Cmd_bind. cbn [negb].
    rewrite Hrun. unfold move_to_backup. rewrite Hsrc. unfold replace.
    assert ((<[backup_name p k := c]> (delete (pathlib.render p) fs)) !! temp_out
            = None) as ->; [|done].
    rewrite lookup_insert_ne by apply Hbt.
    destruct (decide (temp_out = pathlib.render p)) as [->|Hne];
      [by rewrite lookup_delete_eq | by rewrite lookup_delete_ne].
  - rewrite lookup_insert_ne by done. by rewrite lookup_delete_eq.
  - by rewrite lookup_insert_eq.
Qed.

Lemma promotion_failure_strands_original_witness :
  (size a_mid_and_bak <= 2)%nat /\
  a_mid_and_bak !! pathlib.render a_mid = Some (Midi two_tracks) /\
  a_mid_and_bak !! "d/a_KoalaToAbleton.mid" = None /\
  exists k fs',
    write_with_optional_overwrite 2 a_mid "d/a_KoalaToAbleton.mid" true a_mid_and_bak
      = Some (fs', inl (FileNotFoundError "d/a_KoalaToAbleton.mid"
                          (Some (pathlib.render a_mid)))) /\
    fs' !! pathlib.render a_mid = None /\
    fs' !! backup_name a_mid k = Some (Midi two_tracks).
Proof.
  assert (size a_mid_and_bak <= 2)%nat as Hfuel by (vm_compute; lia).
  split; [done|]. split; [reflexivity|]. split; [reflexivity|].
  destruct (promotion_failure_strands_original 2 a_mid "d/a_KoalaToAbleton.mid"
              (Midi two_tracks) a_mid_and_bak Hfuel eq_refl eq_refl)
    as (k & fs' & Hrun & Hgone & Hbak & _).
  - intros k. apply (backup_name_not_temp_out a_mid "K2A" "" k). right. by eexists.
  - by exists k, fs'.
Defined.

(** * Further properties of the batch and of the single-file branch *)

(** X16: a batch without overwrite always ends, makes no backup, and changes
    no path outside the output folder: in particular no source outside the
    output folder is modified. *)
Theorem batch_without_overwrite_stays_in_out_dir fuel mode out_dir files
    (st : BatchState) (fs : FS) :
  exists fs' st',
    batch_loop fuel mode false out_dir files st fs = Some (fs', st') /\
    total_backups st' = total_backups st /\
    forall q, (forall rest, q <> out_dir +:+ "/" +:+ rest) -> fs' !! q = fs !! q.
Proof.
  revert st fs. induction files as [|p files IH]; intros st fs; simpl.
  - by exists fs, st.
  - unfold batch_round. rewrite convert_one_without_overwrite.
    destruct (convert_midi_runs (pathlib.render p)
                (temp_out_of mode false out_dir p) mode fs)
      as (fs1 & r & -> & _ & Hkeep).
    assert (forall q, (forall rest, q <> out_dir +:+ "/" +:+ rest) ->
                      fs1 !! q = fs !! q) as Hkeep1.
    { intros q Hq. apply Hkeep. apply Hq. }
    destruct r as [e|[[t c] cl]].
    + destruct (IH (record_failure st p e) fs1) as (fs' & st' & -> & Hb & Hk).
      exists fs', st'. split; [done|]. split; [done|].
      intros q Hq. by rewrite Hk, Hkeep1.
    + destruct (IH (record_success st (t, c, cl, None)) fs1)
        as (fs' & st' & -> & Hb & Hk).
      exists fs', st'. split; [done|]. split; [done|].
      intros q Hq. by rewrite Hk, Hkeep1.
Qed.

Lemma batch_without_overwrite_stays_in_out_dir_witness :
  exists fs' st',
    batch_loop 0 "K2A" false "d/_converted" [a_mid; b_mid] batch_start a_mid_and_bak
      = Some (fs', st') /\
    total_backups st' = 0 /\
    fs' !! "d/a.mid" = Some (Midi two_tracks).
Proof.
  destruct (batch_without_overwrite_stays_in_out_dir 0 "K2A" "d/_converted"
              [a_mid; b_mid] batch_start a_mid_and_bak)
    as (fs' & st' & Hrun & Hbak & Hkeep).
  exists fs', st'. split; [done|]. split; [done|].
  rewrite Hkeep; [reflexivity|]. by intros rest [=].
Defined.

(** What a success of the body under [try] says of its two calls. *)
Lemma convert_one_success fuel mode overwrite out_dir p (fs fs' : FS) counters bak :
  convert_one fuel mode overwrite out_dir p fs = Some (fs', inr (counters, bak)) ->
  counters_ordered mode counters /\
  (if overwrite then is_Some bak else bak = None).
Proof.
  unfold convert_one, mbind, Cmd_bind.
  destruct (convert_midi _ _ _ fs) as [[fs1 [e|counters1]]|] eqn:Hconv; [done| |done].
  apply convert_midi_ordered in Hconv.
  unfold write_with_optional_overwrite, mbind, Cmd_bind.
  destruct overwrite; cbn [negb].
  - destruct (safe_backup fuel p fs1) as [[fs2 [e|b]]|]; [done| |done].
    destruct (replace _ _ fs2) as [[fs3 [e|[]]]|]; [done| |done].
    intros [= _ <- <-]. split; [done|]. by eexists.
  - intros [= _ <- <-]. done.
Qed.

Lemma sum_counters_ordered mode fuel overwrite out_dir files (fs fs' : FS) outcomes :
  batch_trace fuel mode overwrite out_dir files fs outcomes fs' ->
  counters_ordered mode (sum_counters outcomes).
Proof.
  induction 1 as [|p rest fs fs1 outcome outcomes fs' Hone _ IH]; simpl.
  - unfold counters_ordered. simpl. lia.
  - destruct outcome as [e|[[[t c] cl] bak]]; [done|].
    apply convert_one_success in Hone as [Hord _].
    destruct (sum_counters outcomes) as [[ts cs] cls].
    unfold counters_ordered in *. simpl in *.
    destruct IH as (? & ? & Hz1), Hord as (? & ? & Hz2).
    split; [lia|]. split; [lia|]. intros Hm.
    specialize (Hz1 Hm). specialize (Hz2 Hm). lia.
Qed.

Lemma batch_loop_totals fuel mode overwrite out_dir files :
  forall (st : BatchState) (fs : FS),
    (size fs + length files <= fuel)%nat ->
    exists fs' st' outcomes,
      batch_loop fuel mode overwrite out_dir files st fs = Some (fs', st') /\
      batch_trace fuel mode overwrite out_dir files fs outcomes fs' /\
      total_files st' = total_files st + succeeded outcomes /\
      total_events st' = total_events st + (sum_counters outcomes).1.1 /\
      total_changed st' = total_changed st + (sum_counters outcomes).1.2 /\
      total_clamped st' = total_clamped st + (sum_counters outcomes).2 /\
      total_backups st' =
        total_backups st + (if overwrite then succeeded outcomes else 0).
Proof.
  induction files as [|p files IH]; intros st fs Hfuel; simpl in *.
  - exists fs, st, []. split; [done|]. split; [constructor|].
    simpl. destruct overwrite; repeat split; lia.
  - destruct (convert_one_runs fuel mode overwrite out_dir p fs)
      as (fs1 & r & Hone & Hsize & _); [lia|].
    unfold batch_round. rewrite Hone. destruct r as [e|[[[t c] cl] bak]].
    + destruct (IH (record_failure st p e) fs1)
        as (fs' & st' & os & -> & Htr & Hrest); [lia|].
      exists fs', st', (inl e :: os). split; [done|].
      split; [by econstructor|]. exact Hrest.
    + destruct (IH (record_success st (t, c, cl, bak)) fs1)
        as (fs' & st' & os & -> & Htr & H1 & H2 & H3 & H4 & H5); [lia|].
      exists fs', st', (inr (t, c, cl, bak) :: os). split; [done|].
      split; [by econstructor|].
      apply convert_one_success in Hone as [_ Hbak].
      simpl in *. destruct (sum_counters os) as [[ts cs] cls]. simpl in *.
      destruct overwrite; [destruct Hbak as [b ->] | subst bak];
        repeat split; lia.
Qed.

(** X17: the totals a batch reports are the sums of the counters of the files
    that succeeded; they satisfy [0 <= clamped <= changed <= events]; and the
    number of backups is the number of converted files with overwrite on, 0
    with overwrite off. *)
Theorem batch_totals_are_sums fuel mode overwrite out_dir files (fs : FS) :
  (size fs + length files <= fuel)%nat ->
  exists fs' st outcomes,
    batch_loop fuel mode overwrite out_dir files batch_start fs = Some (fs', st) /\
    batch_trace fuel mode overwrite out_dir files fs outcomes fs' /\
    (total_events st, total_changed st, total_clamped st) = sum_counters outcomes /\
    0 <= total_clamped st <= total_changed st /\
    total_changed st <= total_events st /\
    total_backups st = (if overwrite then total_files st else 0).
Proof.
  intros Hfuel.
  destruct (batch_loop_totals fuel mode overwrite out_dir files batch_start fs Hfuel)
    as (fs' & st & os & Hloop & Htr & H1 & H2 & H3 & H4 & H5).
  exists fs', st, os. split; [done|]. split; [done|].
  pose proof (sum_counters_ordered _ _ _ _ _ _ _ _ Htr) as (Ha & Hb & _).
  simpl in *. destruct (sum_counters os) as [[ts cs] cls]. simpl in *.
  split; [by rewrite H2, H3, H4|]. split; [lia|]. split; [lia|].
  destruct overwrite; lia.
Qed.

Lemma batch_totals_are_sums_witness :
  (size a_mid_and_bak + length [b_mid; a_mid] <= 4)%nat /\
  exists fs' st outcomes,
    batch_loop 4 "K2A" true "d/_converted" [b_mid; a_mid] batch_start a_mid_and_bak
      = Some (fs', st) /\
    (total_events st, total_changed st, total_clamped st) = sum_counters outcomes /\
    total_backups st = total_files st.
Proof.
  assert (size a_mid_and_bak + length [b_mid; a_mid] <= 4)%nat as Hfuel
    by (vm_compute; lia).
  split; [done|].
  destruct (batch_totals_are_sums 4 "K2A" true "d/_converted" [b_mid; a_mid]
              a_mid_and_bak Hfuel)
    as (fs' & st & outcomes & Hloop & _ & Hsum & _ & _ & Hbak).
  by exists fs', st, outcomes.
Defined.









(** A path with an apostrophe is printed between double quotes. *)
Example repr_apostrophe :
  repr "d/it's.mid"
    = String double_quote ("d/it's.mid" +:+ String double_quote EmptyString) /\
  repr "d/a.mid" = "'d/a.mid'".
Proof. split; reflexivity. Qed.



(** * Further properties: discovery *)

Lemma string_take_drop i s : string_take i s +:+ string_drop i s = s.
Proof.
  revert s. induction i as [|i IH]; intros [|a s]; simpl; try done.
  by rewrite string_app_cons, IH.
Qed.

Lemma stem_suffix_name name : stem_of name +:+ suffix_of name = name.
Proof.
  unfold stem_of, suffix_of. destruct (rfind "." name) as [i|];
    [case_decide|]; by rewrite ?string_take_drop, ?string_app_nil_r.
Qed.

(** The character at the index [rfind] returns is the one looked for. *)
Lemma rfind_drop c s i :
  rfind c s = Some i -> exists rest, string_drop i s = String c rest.
Proof.
  revert i. induction s as [|a s IH]; intros i; simpl; [done|].
  destruct (rfind c s) as [j|].
  - intros [= <-]. simpl. by apply IH.
  - case_decide; [|done]. intros [= <-]. subst. by eexists.
Qed.

Lemma suffix_of_shape name :
  suffix_of name = "" \/ exists rest, suffix_of name = String "."%char rest.
Proof.
  unfold suffix_of. destruct (rfind "." name) as [i|] eqn:Hi; [|by left].
  case_decide; [|by left]. right. by eapply rfind_drop.
Qed.

Lemma rfind_app c n r :
  rfind c r = None -> rfind c (n +:+ String c r) = Some (String.length n).
Proof.
  intros Hr. induction n as [|a n IH].
  - change ("" +:+ String c r) with (String c r). simpl.
    rewrite Hr. by case_decide.
  - rewrite string_app_cons. simpl. by rewrite IH.
Qed.

Lemma string_drop_app n t : string_drop (String.length n) (n +:+ t) = t.
Proof.
  induction n as [|a n IH]; [by destruct t|]. by rewrite string_app_cons.
Qed.

Lemma string_take_app n t : string_take (String.length n) (n +:+ t) = n.
Proof.
  induction n as [|a n IH]; [by destruct t|].
  rewrite string_app_cons. simpl. by rewrite IH.
Qed.

(** A name [stem.ext] with a non-empty stem and a non-empty, dot-free
    extension splits at that dot; with an empty stem it has no suffix. *)
Lemma split_at_last_dot n r :
  rfind "." r = None -> r <> "" ->
  (n <> "" ->
   suffix_of (n +:+ String "."%char r) = String "."%char r /\
   stem_of (n +:+ String "."%char r) = n) /\
  (n = "" -> suffix_of (n +:+ String "."%char r) = "").
Proof.
  intros Hr Hne. unfold suffix_of, stem_of. rewrite rfind_app by done.
  rewrite string_app_length. simpl String.length.
  assert (0 < String.length r)%nat by (destruct r; simpl; (done || lia)).
  split.
  - intros Hn. assert (0 < String.length n)%nat by (destruct n; simpl; (done || lia)).
    case_decide; [|lia]. by rewrite string_drop_app, string_take_app.
  - intros ->. simpl. repeat case_decide; (done || lia).
Qed.

Lemma rfind_pretty_N_go x s :
  rfind "." s = None -> rfind "." (pretty_N_go x s) = None.
Proof.
  revert s. induction (N.lt_wf_0 x) as [x _ IH]; intros s Hs.
  destruct (decide (x = 0)%N) as [->|Hx]; [by rewrite pretty_N_go_0|].
  rewrite pretty_N_go_step by lia. apply IH; [apply N.div_lt; lia|].
  simpl. rewrite Hs. case_decide as Hc; [|done].
  revert Hc. unfold pretty_N_char. by repeat case_match.
Qed.

Lemma rfind_pretty (k : nat) : rfind "." (pretty (Z.of_nat k)) = None.
Proof.
  destruct k as [|k]; [done|].
  destruct (Z.of_nat (S k)) as [|q|q] eqn:Hq; [lia| |lia].
  unfold pretty, pretty_Z, pretty, pretty_positive, pretty, pretty_N.
  case_decide; [done|]. by apply rfind_pretty_N_go.
Qed.

Lemma backup_ending_shape k :
  exists d, backup_ending k = String "."%char ("bak" +:+ d) /\ rfind "." d = None.
Proof.
  destruct k as [|k]; [by exists ""|].
  exists (pretty (Z.of_nat (S k))). split; [done|]. apply rfind_pretty.
Qed.

Lemma backup_name_ending p k :
  backup_name p k
    = pathlib.joinpath (pathlib.parent p) (pathlib.name p +:+ backup_ending k).
Proof.
  destruct k; unfold backup_name, backup_ending, pathlib.with_suffix,
    pathlib.joinpath, pathlib.name; by rewrite !string_app_assoc.
Qed.

Lemma backup_name_not_midi name k :
  is_midi_file (File (name +:+ backup_ending k)) = false.
Proof.
  unfold is_midi_file. simpl. apply bool_decide_eq_false.
  destruct (backup_ending_shape k) as (d & -> & Hd).
  assert (rfind "." ("bak" +:+ d) = None) as Hr.
  { change ("bak" +:+ d) with (String "b"%char (String "a"%char (String "k"%char d))).
    simpl. by rewrite Hd. }
  destruct (split_at_last_dot name ("bak" +:+ d) Hr) as [Hfull Hempty]; [done|].
  destruct (decide (name = "")) as [Hn|Hn].
  - rewrite (Hempty Hn). simpl. by intros [?|[?|?%elem_of_nil]%elem_of_cons]%elem_of_cons.
  - destruct (Hfull Hn) as [-> _]. simpl.
    intros [Heq|[Heq|?%elem_of_nil]%elem_of_cons]%elem_of_cons; [by injection Heq..|done].
Qed.

Lemma in_iterdir_in_rglob folder children de :
  In de (iterdir folder children) -> In de (rglob folder children).
Proof.
  unfold iterdir, rglob. intros (e & <- & He)%in_map_iff.
  apply in_flat_map. exists e. split; [done|]. destruct e; simpl; by left.
Qed.

Lemma iter_midi_files_In folder children recursive p :
  In p (iter_midi_files folder children recursive) <->
  exists dir e,
    In (dir, e) (if recursive then rglob folder children
                 else iterdir folder children) /\
    is_midi_file e = true /\ p = path_of dir (entry_name e).
Proof.
  unfold iter_midi_files. rewrite in_map_iff. split.
  - intros ([dir e] & <- & [Hin Hm]%filter_In). by exists dir, e.
  - intros (dir & e & Hin & Hm & ->). exists (dir, e). split; [done|].
    by apply filter_In.
Qed.

(** X20: every file found without recursion is found with it. *)
Theorem top_level_files_found_recursively folder children p :
  In p (iter_midi_files folder children false) ->
  In p (iter_midi_files folder children true).
Proof.
  rewrite !iter_midi_files_In. intros (dir & e & Hin & Hm & ->).
  exists dir, e. split; [by apply in_iterdir_in_rglob|]. done.
Qed.

Lemma top_level_files_found_recursively_witness :
  In a_mid (iter_midi_files "d" sample_folder false) /\
  In a_mid (iter_midi_files "d" sample_folder true).
Proof.
  assert (In a_mid (iter_midi_files "d" sample_folder false)) as Htop
    by (vm_compute; by left).
  split; [done|]. by apply (top_level_files_found_recursively "d" sample_folder a_mid).
Defined.

(** X21: every path the generator yields is a file (never a folder) that was
    listed, its stem and suffix make up the listed name, its suffix is ".mid"
    or ".midi" up to case, and it has the shape pathlib gives a suffix. *)
Theorem discovered_paths_are_midi_files folder children recursive p :
  In p (iter_midi_files folder children recursive) ->
  (exists name,
     In (pathlib.parent p, File name) (rglob folder children) /\
     pathlib.name p = name) /\
  (lower (pathlib.suffix p) = ".mid" \/ lower (pathlib.suffix p) = ".midi") /\
  pathlib.suffix_ok p.
Proof.
  rewrite iter_midi_files_In. intros (dir & e & Hin & Hm & ->).
  unfold is_midi_file in Hm. apply andb_prop in Hm as [Hfile Hext].
  destruct e as [name|name cs]; [|done]. simpl in *.
  apply bool_decide_eq_true in Hext. split; [|split].
  - exists name. split; [|apply stem_suffix_name].
    destruct recursive; [done|]. by apply in_iterdir_in_rglob.
  - apply elem_of_cons in Hext as [?|Hext]; [by left|].
    apply elem_of_cons in Hext as [?|Hext]; [by right|].
    by apply elem_of_nil in Hext.
  - apply suffix_of_shape.
Qed.

Lemma discovered_paths_are_midi_files_witness :
  In (b_upper) (iter_midi_files "d" sample_folder true) /\
  lower (pathlib.suffix (b_upper)) = ".midi" /\
  pathlib.suffix_ok (b_upper).
Proof.
  assert (In (b_upper) (iter_midi_files "d" sample_folder true))
    as Hin by (vm_compute; right; by left).
  split; [done|].
  destruct (discovered_paths_are_midi_files "d" sample_folder true _ Hin)
    as (_ & Hext & Hok).
  split; [|done]. destruct Hext as [Hext|Hext]; [discriminate Hext | exact Hext].
Defined.

(** X22: no backup made by [safe_backup] is ever picked up as an input: the
    k-th backup name of any path is its folder and its name followed by
    ".bak" or ".bak<k>", and a file so named is not yielded. *)
Theorem backups_are_not_discovered folder children recursive src k p :
  In p (iter_midi_files folder children recursive) ->
  backup_name src k
    = pathlib.joinpath (pathlib.parent src) (pathlib.name src +:+ backup_ending k) /\
  pathlib.name p <> pathlib.name src +:+ backup_ending k.
Proof.
  intros Hin. split; [apply backup_name_ending|].
  apply iter_midi_files_In in Hin as (dir & e & _ & Hm & ->).
  intros Heq. unfold pathlib.name, path_of in Heq. simpl in Heq.
  rewrite stem_suffix_name in Heq.
  unfold is_midi_file in Hm. apply andb_prop in Hm as [Hfile Hext].
  destruct e as [name|name cs]; [|done]. simpl in *. subst name.
  pose proof (backup_name_not_midi (pathlib.name src) k) as Hno.
  unfold is_midi_file, pathlib.name in *. simpl in *. congruence.
Qed.

Lemma backups_are_not_discovered_witness :
  In b_upper (iter_midi_files "d" sample_folder true) /\
  backup_name a_mid 2 = "d/a.mid.bak2" /\
  pathlib.name b_upper <> pathlib.name a_mid +:+ backup_ending 2.
Proof.
  assert (In b_upper (iter_midi_files "d" sample_folder true)) as Hin
    by (vm_compute; right; by left).
  split; [done|]. split; [reflexivity|].
  exact (proj2 (backups_are_not_discovered "d" sample_folder true a_mid 2
                  b_upper Hin)).
Defined.

(** X23: a listed file named [stem.ext], with a non-empty stem and [ext]
    dot-free and equal to "mid" or "midi" up to case, is yielded, split into
    that stem and that suffix; a file whose name starts at its only dot (such
    as ".mid") is not. *)
Theorem midi_names_are_discovered folder children (recursive : bool)
    (dir n r : string) :
  In (dir, File (n +:+ String "."%char r))
     (if recursive then rglob folder children else iterdir folder children) ->
  rfind "."%char r = None ->
  lower r = "mid" \/ lower r = "midi" ->
  (n <> "" ->
   In {| pathlib.parent := dir; pathlib.stem := n;
         pathlib.suffix := String "."%char r |}
      (iter_midi_files folder children recursive)) /\
  (n = "" -> is_midi_file (File (n +:+ String "."%char r)) = false).
Proof.
  intros Hin Hr Hext.
  assert (r <> "") as Hne by (intros ->; by destruct Hext).
  destruct (split_at_last_dot n r Hr Hne) as [Hfull Hempty]. split.
  - intros Hn. destruct (Hfull Hn) as [Hsuf Hstem].
    apply iter_midi_files_In. eexists dir, _. split; [exact Hin|]. split.
    + unfold is_midi_file. simpl. rewrite Hsuf. simpl.
      apply bool_decide_eq_true.
      destruct Hext as [-> | ->]; [by left | right; by left].
    + unfold path_of. simpl. by rewrite Hsuf, Hstem.
  - intros Hn. unfold is_midi_file. simpl. by rewrite (Hempty Hn).
Qed.

Lemma midi_names_are_discovered_witness :
  In ("d/sub", File ("B" +:+ String "."%char "MIDI")) (rglob "d" sample_folder) /\
  rfind "." "MIDI" = None /\
  (lower "MIDI" = "mid" \/ lower "MIDI" = "midi") /\
  In {| pathlib.parent := "d/sub"; pathlib.stem := "B"; pathlib.suffix := ".MIDI" |}
     (iter_midi_files "d" sample_folder true).
Proof.
  assert (In ("d/sub", File ("B" +:+ String "."%char "MIDI")) (rglob "d" sample_folder))
    as Hin by (vm_compute; tauto).
  split; [done|]. split; [reflexivity|]. split; [by right|].
  apply (proj1 (midi_names_are_discovered "d" sample_folder true "d/sub" "B" "MIDI"
                  Hin eq_refl (or_intror eq_refl))).
  done.
Defined.
